(** * MPD: the ICU transliterator wrapper and the snapcast output

    A shallow embedding of
      - src/lib/icu/Transliterator.cxx  (module [Icu]),
      - src/output/plugins/snapcast/Internal.hxx  (module [Snapcast]),
    with the properties of the design document stated over it. *)

From Stdlib Require Import String ZArith Lia.
From stdpp Require Import base option list gmap.

(** ** Machine integers

    [size_t] is an unsigned 64-bit integer and [int32_t] a signed 32-bit
    one; both are kept as [Z] with the conversions written out. *)
Module Int.
Local Open Scope Z_scope.

Definition size_t_modulus : Z := 2 ^ 64.
Definition int32_modulus : Z := 2 ^ 32.
Definition int32_half : Z := 2 ^ 31.

(** conversion to [size_t]: reduction modulo 2^64 *)
Definition to_size_t (z : Z) : Z := z mod size_t_modulus.

(** conversion to [int32_t]: two's complement wrap-around *)
Definition to_int32 (z : Z) : Z :=
  (z + int32_half) mod int32_modulus - int32_half.

End Int.

(** ** src/lib/icu/Transliterator.cxx *)
Module Icu.
Import Int.
Local Open Scope Z_scope.

(** A UTF-16 code unit. *)
Definition UChar : Type := Z.

(** [UErrorCode] is a C enumeration; zero is success, negative values
    are warnings and positive values are errors. *)
Definition UErrorCode : Type := Z.
Definition U_ZERO_ERROR : UErrorCode := 0.
Definition U_STRING_NOT_TERMINATED_WARNING : UErrorCode := -124.
Definition U_ILLEGAL_ARGUMENT_ERROR : UErrorCode := 1.
Definition U_BUFFER_OVERFLOW_ERROR : UErrorCode := 15.

(** the macro [U_FAILURE(x)], which is [(x) > U_ZERO_ERROR] *)
Definition U_FAILURE (x : UErrorCode) : bool := U_ZERO_ERROR <? x.

(** [AllocatedArray<UChar>]: either the null array or a heap buffer
    together with the size the array declares.  [SetSize] changes the
    declared size only, the buffer stays as allocated. *)
Inductive AllocatedArray : Type :=
| nullptr
| Array (buffer : list UChar) (size : Z).

(** [AllocatedArray::size()] *)
Definition array_size (a : AllocatedArray) : Z :=
  match a with
  | nullptr => 0
  | Array _ n => n
  end.

(** the elements an array exposes: the first [size] cells of its buffer *)
Definition contents (a : AllocatedArray) : option (list UChar) :=
  match a with
  | nullptr => None
  | Array buf n => Some (take (Z.to_nat n) buf)
  end.

(** What [utrans_transUChars] hands back through its pointer arguments:
    the text buffer, [*textLength], [*limit] and [*status]. *)
Record TransResult : Type := mkTransResult {
  out_text : list UChar;
  out_length : Z;
  out_limit : Z;
  out_status : UErrorCode
}.

Section Wrapper.
(** ICU is an external library: its handle type and its entry point
    are parameters of the wrapper.  The arguments of the entry point
    are, in the order of the C prototype, the transliterator, the
    text buffer, [*textLength], [textCapacity], [start], [*limit] and
    [*status] on entry. *)
Variable UTransliterator : Type.
Variable utrans_transUChars :
  UTransliterator -> list UChar -> Z -> Z -> Z -> Z -> UErrorCode ->
  TransResult.

(** The cells of a fresh [new UChar[n]] hold indeterminate values;
    [indeterminate i] is whatever cell [i] happens to hold. *)
Variable indeterminate : nat -> UChar.

(** [dest.size()] after [AllocatedArray<UChar> dest(src.size() * 2U)] *)
Definition dest_capacity (src : list UChar) : Z :=
  to_size_t (Z.of_nat (length src) * 2).

(** [dest] after [std::copy(src.begin(), src.end(), dest.begin())] *)
Definition dest_buffer (src : list UChar) : list UChar :=
  src ++ map indeterminate
             (seq (length src) (Z.to_nat (dest_capacity src) - length src)).

(** the call [utrans_transUChars(transliterator, dest.data(), &length,
    dest.size(), 0, &limit, &status)] with [length] and [limit] both
    initialised from [src.size()] and [status] from [U_ZERO_ERROR] *)
Definition trans_call (transliterator : UTransliterator)
    (src : list UChar) : TransResult :=
  let length := to_int32 (Z.of_nat (List.length src)) in
  let limit := length in
  utrans_transUChars transliterator
    (dest_buffer src) length (to_int32 (dest_capacity src))
    0 limit U_ZERO_ERROR.

(** [IcuTransliterator::Transliterate] *)
Definition Transliterate (transliterator : UTransliterator)
    (src : list UChar) : AllocatedArray :=
  let r := trans_call transliterator src in
  if U_FAILURE (out_status r) then nullptr
  else Array (out_text r) (to_size_t (out_length r)).
End Wrapper.

Arguments dest_capacity src : clear implicits.
Arguments dest_buffer indeterminate src : clear implicits.
Arguments trans_call {UTransliterator} utrans_transUChars indeterminate
  transliterator src.
Arguments Transliterate {UTransliterator} utrans_transUChars indeterminate
  transliterator src.

(** *** The documented behaviour of [utrans_transUChars]

    A transliterator is taken as the text transformation it performs
    on a segment.  The entry point follows the ICU reference manual: it
    does nothing when [*status] already is a failure; a negative
    [*textLength] means the text is NUL-terminated; the segment
    [start, limit) is replaced by its transliteration; [*textLength]
    receives the length of the result; the result is written back only
    when it fits, with a terminating NUL when there is room for one;
    [*status] becomes [U_STRING_NOT_TERMINATED_WARNING] when the result
    fills the buffer exactly and [U_BUFFER_OVERFLOW_ERROR] when it does
    not fit. *)
Definition Rules : Type := list UChar -> list UChar.

Fixpoint u_strlen (text : list UChar) : nat :=
  match text with
  | [] => O
  | c :: rest => if c =? 0 then O else S (u_strlen rest)
  end.

Definition icu_transliterate (t : Rules) (str : list UChar)
    (start limit : Z) : list UChar * Z :=
  if (start <? 0) || (limit <? start) || (Z.of_nat (length str) <? limit)
  then (str, -1)
  else
    let head := take (Z.to_nat start) str in
    let seg := take (Z.to_nat (limit - start)) (drop (Z.to_nat start) str) in
    let tail := drop (Z.to_nat limit) str in
    let seg' := t seg in
    (head ++ seg' ++ tail, start + Z.of_nat (length seg')).

Definition icu_extract (str text : list UChar) (capacity : Z)
    : list UChar * UErrorCode :=
  let len := Z.of_nat (length str) in
  if capacity <? 0 then (text, U_ILLEGAL_ARGUMENT_ERROR)
  else if len <? capacity then
    (str ++ 0 :: drop (S (length str)) text, U_ZERO_ERROR)
  else if len =? capacity then
    (str ++ drop (length str) text, U_STRING_NOT_TERMINATED_WARNING)
  else (text, U_BUFFER_OVERFLOW_ERROR).

Definition icu_transUChars (t : Rules) (text : list UChar)
    (textLength textCapacity start limit : Z) (status : UErrorCode)
    : TransResult :=
  if U_FAILURE status then mkTransResult text textLength limit status
  else
    let textLen :=
      if textLength <? 0 then u_strlen text else Z.to_nat textLength in
    let str := take textLen text in
    let '(str', limit') := icu_transliterate t str start limit in
    let '(text', status') := icu_extract str' text textCapacity in
    mkTransResult text' (Z.of_nat (length str')) limit' status'.

(** The pass-through reading of the wrapper: the array holds exactly
    the text the library computes for the input. *)
Definition Transliterate_passthrough (t : Rules) (src : list UChar)
    : option (list UChar) :=
  Some (t src).

(** a rule set that writes every code unit three times *)
Definition triple : Rules :=
  fun s => flat_map (fun c => [c; c; c]) s.

(** a rule set that writes every code unit twice *)
Definition double : Rules :=
  fun s => flat_map (fun c => [c; c]) s.
(** *** Opening a transliterator

    [OpenTransliterator] and the constructor of [IcuTransliterator].
    [utrans_openU] and [u_errorName] belong to ICU and are parameters;
    the arguments of [utrans_openU] are, in the order of the C
    prototype, [id], [idLength], [dir], [rules], [rulesLength], whether
    [parseError] is given, and [*pErrorCode] on entry; it hands back the
    handle, null or not, and [*pErrorCode]. *)
Definition UTRANS_FORWARD : Z := 0.

(** the outcome of a function that may throw [std::runtime_error] *)
Inductive Thrown (A : Type) : Type :=
| Returned (a : A)
| runtime_error (what : string).

Arguments Returned {A} a.
Arguments runtime_error {A} what.

Section Open.
Variable UTransliterator : Type.
Variable utrans_openU :
  list UChar -> Z -> Z -> option (list UChar) -> Z -> bool -> UErrorCode ->
  option UTransliterator * UErrorCode.
Variable u_errorName : UErrorCode -> string.

(** [OpenTransliterator] *)
Definition OpenTransliterator (id : list UChar)
    (rules : option (list UChar)) : Thrown UTransliterator :=
  let error_code := U_ZERO_ERROR in
  let '(t, error_code) :=
    utrans_openU id (-1) UTRANS_FORWARD rules (-1) false error_code in
  match t with
  | None => runtime_error (u_errorName error_code)
  | Some t => Returned t
  end.

(** the class [IcuTransliterator] and its constructor *)
Record IcuTransliterator : Type := mkIcuTransliterator {
  transliterator : UTransliterator
}.

Definition IcuTransliterator_new (id : list UChar)
    (rules : option (list UChar)) : Thrown IcuTransliterator :=
  match OpenTransliterator id rules with
  | Returned t => Returned (mkIcuTransliterator t)
  | runtime_error what => runtime_error what
  end.
End Open.

Arguments OpenTransliterator {UTransliterator} utrans_openU u_errorName
  id rules.
Arguments IcuTransliterator_new {UTransliterator} utrans_openU u_errorName
  id rules.
Arguments transliterator {UTransliterator} _.
Arguments mkIcuTransliterator {UTransliterator} _.
End Icu.

(** ** src/output/plugins/snapcast/Internal.hxx

    The header declares the class [SnapcastOutput] with its fields and
    gives the bodies of [HasClients], [LockHasClients], [GetCodecName],
    [GetCodecHeader], [Enable] and [Disable].  The other member functions
    are declared there and defined in a translation unit that is not part
    of this fragment; they are modelled from the design document and
    marked as such. *)
Module Snapcast.
Import Int.
Local Open Scope Z_scope.

Definition byte : Type := Init.Byte.byte.

(** the identity of a [SnapcastClient] object *)
Definition ClientId : Type := nat.

(** [std::chrono::steady_clock::time_point] *)
Definition time_point : Type := Z.

(** Modelled from the spec: [AudioFormat] is declared outside this
    fragment; an audio format is a sample rate, a sample format (here
    its width in bits) and a channel count. *)
Record AudioFormat : Type := mkAudioFormat {
  sample_rate : Z;
  bits : Z;
  channels : Z
}.

(** Modelled from the spec: [SnapcastClient] is only forward-declared.
    What a client receives on its connection is a codec-header message
    or a wire chunk, which is a payload with a timestamp. *)
Inductive Message : Type :=
| CodecHeaderMessage (payload : list byte)
| WireChunkMessage (payload : list byte) (t : time_point).

Definition is_wire_chunk (m : Message) : Prop :=
  match m with
  | WireChunkMessage _ _ => True
  | CodecHeaderMessage _ => False
  end.

(** the calls made on the encoder, as an observer of the encoder sees
    them *)
Inductive EncoderEvent : Type :=
| EvFeed (consumed : Z)
| EvDrain (out : list byte)
| EvFlush (out : list byte)
| EvCancel.

(** Modelled from the spec: the classes [PreparedEncoder] and [Encoder]
    are only forward-declared in the header.  The design document gives
    the encoder a black-box contract: it is constructed for an audio
    format or refused (OpenError), produces a codec header, and offers
    Feed (returning the number of bytes consumed), Drain, Flush and a way
    to discard what it has buffered.  A Feed, Drain or Flush step can
    fail (EncoderRuntimeError), which shows as [None]. *)
Class EncoderPlugin (E : Type) : Type := {
  enc_open : AudioFormat -> option E;
  enc_header : E -> list byte;
  enc_feed : E -> list byte -> option (E * Z);
  enc_drain : E -> option (E * list byte);
  enc_flush : E -> option (E * list byte);
  enc_cancel : E -> E
}.

(** Modelled from the spec: the bytes an encoder has actually consumed.
    [enc_consumed e] is the number of input bytes the encoder has taken
    in so far.  A Feed step that succeeds takes in what it reports, which
    is part of the chunk it was offered; no other step takes in
    anything. *)
Class ConsumptionMeter (E : Type) `{EncoderPlugin E} : Type := {
  enc_consumed : E -> Z;
  enc_feed_consumed e chunk e' k :
    enc_feed e chunk = Some (e', k) ->
    enc_consumed e' = enc_consumed e + k /\
    0 <= k <= Z.of_nat (length chunk);
  enc_drain_consumed e e' out :
    enc_drain e = Some (e', out) -> enc_consumed e' = enc_consumed e;
  enc_flush_consumed e e' out :
    enc_flush e = Some (e', out) -> enc_consumed e' = enc_consumed e;
  enc_cancel_consumed e :
    enc_consumed (enc_cancel e) = enc_consumed e
}.

(** Modelled from the spec: [Timer] is declared outside this fragment;
    the timing handle has no state beyond the correlation with the
    wallclock, fixed when the output is opened. *)
Record Timer : Type := mkTimer { timer_origin : time_point }.

(** The class [SnapcastOutput].  The fields up to [mutex] are those of
    the header, in its order; [prepared_encoder], the configured encoder
    plugin, is the [EncoderPlugin] instance.  [bound] stands for
    the listener state of the [ServerSocket] base class, and the
    remaining fields describe the surroundings of the object: what every
    client has received on its connection, which client objects have
    been deleted, the next unused client identity, the steady clock and
    the calls made on the encoder. *)
Record SnapcastOutput (E : Type) : Type := mkSnapcastOutput {
  open : bool;
  encoder : option E;
  codec_header : option (list byte);
  unflushed_input : Z;
  timer : option Timer;
  clients : list ClientId;
  mutex : bool;
  bound : bool;
  wire : gmap ClientId (list Message);
  destroyed : list ClientId;
  next_client : ClientId;
  clock : time_point;
  encoder_log : list EncoderEvent
}.

Arguments mkSnapcastOutput {E}.
Arguments open {E}.
Arguments encoder {E}.
Arguments codec_header {E}.
Arguments unflushed_input {E}.
Arguments timer {E}.
Arguments clients {E}.
Arguments mutex {E}.
Arguments bound {E}.
Arguments wire {E}.
Arguments destroyed {E}.
Arguments next_client {E}.
Arguments clock {E}.
Arguments encoder_log {E}.

Section Output.
Context {E : Type} `{EncoderPlugin E}.

Local Abbreviation State := (SnapcastOutput E).

(** field updates *)
Definition set_open (v : bool) (s : State) : State :=
  mkSnapcastOutput v (encoder s) (codec_header s) (unflushed_input s)
    (timer s) (clients s) (mutex s) (bound s) (wire s) (destroyed s)
    (next_client s) (clock s) (encoder_log s).

Definition set_encoder (v : option E) (s : State) : State :=
  mkSnapcastOutput (open s) v (codec_header s) (unflushed_input s)
    (timer s) (clients s) (mutex s) (bound s) (wire s) (destroyed s)
    (next_client s) (clock s) (encoder_log s).

Definition set_codec_header (v : option (list byte)) (s : State) : State :=
  mkSnapcastOutput (open s) (encoder s) v (unflushed_input s)
    (timer s) (clients s) (mutex s) (bound s) (wire s) (destroyed s)
    (next_client s) (clock s) (encoder_log s).

Definition set_unflushed_input (v : Z) (s : State) : State :=
  mkSnapcastOutput (open s) (encoder s) (codec_header s) v
    (timer s) (clients s) (mutex s) (bound s) (wire s) (destroyed s)
    (next_client s) (clock s) (encoder_log s).

Definition set_timer (v : option Timer) (s : State) : State :=
  mkSnapcastOutput (open s) (encoder s) (codec_header s) (unflushed_input s)
    v (clients s) (mutex s) (bound s) (wire s) (destroyed s)
    (next_client s) (clock s) (encoder_log s).

Definition set_clients (v : list ClientId) (s : State) : State :=
  mkSnapcastOutput (open s) (encoder s) (codec_header s) (unflushed_input s)
    (timer s) v (mutex s) (bound s) (wire s) (destroyed s)
    (next_client s) (clock s) (encoder_log s).

Definition set_mutex (v : bool) (s : State) : State :=
  mkSnapcastOutput (open s) (encoder s) (codec_header s) (unflushed_input s)
    (timer s) (clients s) v (bound s) (wire s) (destroyed s)
    (next_client s) (clock s) (encoder_log s).

Definition set_bound (v : bool) (s : State) : State :=
  mkSnapcastOutput (open s) (encoder s) (codec_header s) (unflushed_input s)
    (timer s) (clients s) (mutex s) v (wire s) (destroyed s)
    (next_client s) (clock s) (encoder_log s).

Definition set_wire (v : gmap ClientId (list Message)) (s : State) : State :=
  mkSnapcastOutput (open s) (encoder s) (codec_header s) (unflushed_input s)
    (timer s) (clients s) (mutex s) (bound s) v (destroyed s)
    (next_client s) (clock s) (encoder_log s).

Definition set_destroyed (v : list ClientId) (s : State) : State :=
  mkSnapcastOutput (open s) (encoder s) (codec_header s) (unflushed_input s)
    (timer s) (clients s) (mutex s) (bound s) (wire s) v
    (next_client s) (clock s) (encoder_log s).

Definition set_next_client (v : ClientId) (s : State) : State :=
  mkSnapcastOutput (open s) (encoder s) (codec_header s) (unflushed_input s)
    (timer s) (clients s) (mutex s) (bound s) (wire s) (destroyed s)
    v (clock s) (encoder_log s).

Definition set_clock (v : time_point) (s : State) : State :=
  mkSnapcastOutput (open s) (encoder s) (codec_header s) (unflushed_input s)
    (timer s) (clients s) (mutex s) (bound s) (wire s) (destroyed s)
    (next_client s) v (encoder_log s).

Definition set_encoder_log (v : list EncoderEvent) (s : State) : State :=
  mkSnapcastOutput (open s) (encoder s) (codec_header s) (unflushed_input s)
    (timer s) (clients s) (mutex s) (bound s) (wire s) (destroyed s)
    (next_client s) (clock s) v.

(** *** The mutex

    [lock] is [Mutex::lock]: it does not return while the mutex is
    held, which shows as [None]. *)
Definition lock (s : State) : option State :=
  if mutex s then None else Some (set_mutex true s).

Definition unlock (s : State) : State := set_mutex false s.

(** *** Member functions defined in the header *)

(** [HasClients]: [return !clients.empty();] *)
Definition HasClients (s : State) : bool :=
  negb (match clients s with [] => true | _ :: _ => false end).

(** [LockHasClients]: takes the mutex through a [std::lock_guard] for
    the duration of the call to [HasClients] *)
Definition LockHasClients (s : State) : option (bool * State) :=
  s1 ← lock s;
  let result := HasClients s1 in
  Some (result, unlock s1).

(** [GetCodecName]: [return "pcm";] *)
Definition GetCodecName (s : State) : string := "pcm"%string.

(** [GetCodecHeader]: the bytes of [codec_header]; a null array gives
    the empty buffer *)
Definition GetCodecHeader (s : State) : list byte :=
  match codec_header s with
  | Some header => header
  | None => []
  end.

(** Modelled from the spec: [Bind] and [Unbind] are declared in the
    header and defined elsewhere.  Binding begins listening for client
    connections and is a no-op when already bound; unbinding stops
    listening. *)
Definition Bind (s : State) : State := set_bound true s.
Definition Unbind (s : State) : State := set_bound false s.

(** [Enable]: [Bind();] and [Disable]: [Unbind();] *)
Definition Enable (s : State) : State := Bind s.
Definition Disable (s : State) : State := Unbind s.

(** *** Member functions declared in the header and defined elsewhere *)

(** the configured flush threshold, in bytes *)
Variable flush_threshold : Z.

(** Modelled from the spec: the flush heuristic is not part of the
    header.  It is a pure function of the unflushed-byte counter and the
    configured threshold that tells whether to flush in this cycle. *)
Definition should_flush (unflushed threshold : Z) : bool :=
  threshold <=? unflushed.

(** Modelled from the spec: the body of [AddClient] is missing.  The
    accepted connection is wrapped into a new client, linked at the end
    of [clients], and sent the current codec header. *)
Definition AddClient (s : State) : State :=
  let c := next_client s in
  set_next_client (S c)
    (set_wire (<[c := [CodecHeaderMessage (GetCodecHeader s)]]> (wire s))
       (set_clients (clients s ++ [c]) s)).

(** Modelled from the spec: the body of [RemoveClient] is missing.  It
    unlinks and destroys the client; for a client that is not linked any
    more it does nothing. *)
Definition RemoveClient (c : ClientId) (s : State) : State :=
  if decide (c ∈ clients s) then
    set_destroyed (destroyed s ++ [c])
      (set_clients (filter (λ x, x ≠ c) (clients s)) s)
  else s.

(** one delivery of a wire chunk: a client whose delivery fails is
    evicted, any other client receives the chunk after what it has
    received so far *)
Definition deliver (payload : list byte) (t : time_point)
    (fails : ClientId -> bool) (s : State) (c : ClientId) : State :=
  if fails c then RemoveClient c s
  else
    let received := default [] (wire s !! c) in
    set_wire (<[c := received ++ [WireChunkMessage payload t]]> (wire s)) s.

(** Modelled from the spec: the body of [BroadcastWireChunk] is missing.
    The same payload and timestamp go to every linked client in
    insertion order. *)
Definition BroadcastWireChunk (payload : list byte) (t : time_point)
    (fails : ClientId -> bool) (s : State) : State :=
  foldl (deliver payload t fails) s (clients s).

(** Modelled from the spec: the body of [OpenEncoder] is missing.  It
    constructs the encoder for the audio format, or throws, and stores
    the codec header the encoder produces.  Nothing has been fed into
    the new encoder, so the unflushed-byte counter starts at zero. *)
Definition OpenEncoder (audio_format : AudioFormat) (s : State)
    : option State :=
  e ← enc_open audio_format;
  Some (set_unflushed_input 0
          (set_codec_header (Some (enc_header e)) (set_encoder (Some e) s))).

(** the timestamp of the timing source *)
Definition Now (s : State) : time_point := clock s.

(** what a call hands back to its caller *)
Inductive Return : Type :=
| RetVoid
| RetSize (n : Z)
| RetBool (b : bool)
| ThrowOpenError
| ThrowEncoderRuntimeError.

(** Modelled from the spec: the body of [Open] is missing.  It is called
    on a closed output; when the encoder cannot be constructed the call
    fails and the output stays closed, otherwise the output is open, with
    its encoder, codec header and timing handle. *)
Definition Open (audio_format : AudioFormat) (s : State)
    : option (State * Return) :=
  if open s then None
  else
    s1 ← lock s;
    match OpenEncoder audio_format s1 with
    | None => Some (unlock s1, ThrowOpenError)
    | Some s2 =>
        let s3 := set_timer (Some (mkTimer (Now s2))) s2 in
        Some (unlock (set_open true s3), RetVoid)
    end.

(** Modelled from the spec: the body of [Close] is missing.  It flushes
    and releases the encoder and leaves the output closed; the clients
    stay linked.  The unflushed-byte counter is reset when the flush
    gives bytes.  [Close] is declared [noexcept]: a flush that fails is
    not propagated.  On a closed output it does nothing more. *)
Definition Close (s : State) : State :=
  let s1 :=
    match encoder s with
    | Some e =>
        match enc_flush e with
        | Some (_, out) =>
            let s0 := set_encoder_log (encoder_log s ++ [EvFlush out]) s in
            match out with
            | [] => s0
            | _ :: _ => set_unflushed_input 0 s0
            end
        | None => s
        end
    | None => s
    end in
  set_open false
    (set_timer None (set_codec_header None (set_encoder None s1))).

(** Modelled from the spec: the encode step of [Play], which is not
    part of the header.  It feeds the encoder and adds what the encoder
    consumed to the unflushed-byte counter, drains the encoder and
    resets the counter when that gave output, and flushes the encoder
    when the heuristic says so, resetting the counter after that.  It
    gives the new state, the bytes that resulted and the number of bytes
    the encoder consumed, or [None] when a step of the encoder fails. *)
Definition EncodeChunk (chunk : list byte) (e : E) (s : State)
    : option (State * list byte * Z) :=
  '(e1, consumed) ← enc_feed e chunk;
  let fed := to_size_t (unflushed_input s + consumed) in
  '(e2, out1) ← enc_drain e1;
  let drained := match out1 with [] => fed | _ :: _ => 0 end in
  '(e3, out2, unflushed, flushes) ←
    (if should_flush drained flush_threshold then
       '(e3, out2) ← enc_flush e2; Some (e3, out2, 0, [EvFlush out2])
     else Some (e2, [], drained, []));
  Some (set_encoder_log
          (encoder_log s ++ [EvFeed consumed; EvDrain out1] ++ flushes)
          (set_unflushed_input unflushed (set_encoder (Some e3) s)),
        out1 ++ out2, consumed).

(** Modelled from the spec: the body of [Play] is missing.  It is valid
    on an open output only.  After the encode step it broadcasts what
    resulted, if anything, stamped with [Now], under the mutex, and
    returns the number of bytes the encoder consumed.  When a step of
    the encoder fails, the failure is propagated to the caller as an
    EncoderRuntimeError; the design document leaves no partially applied
    state on failure, so the state is then as it was before the call. *)
Definition Play (chunk : list byte) (fails : ClientId -> bool) (s : State)
    : option (State * Return) :=
  if negb (open s) then None
  else
    match encoder s with
    | None => None
    | Some e =>
        match EncodeChunk chunk e s with
        | None => Some (s, ThrowEncoderRuntimeError)
        | Some (s1, payload, consumed) =>
            match payload with
            | [] => Some (s1, RetSize consumed)
            | _ :: _ =>
                s2 ← lock s1;
                Some (unlock (BroadcastWireChunk payload (Now s2) fails s2),
                      RetSize consumed)
            end
        end
    end.

(** Modelled from the spec: the body of [Cancel] is missing.  It
    discards what the encoder has buffered and tells the clients
    nothing. *)
Definition Cancel (s : State) : State :=
  match encoder s with
  | Some e =>
      set_encoder_log (encoder_log s ++ [EvCancel])
        (set_encoder (Some (enc_cancel e)) s)
  | None => s
  end.

(** Modelled from the spec: the body of [Pause] is missing.  The output
    can stay open while paused. *)
Definition Pause (s : State) : State * bool := (s, true).

(** Modelled from the spec: the body of [OnAccept] is missing.  A
    connection arrives on the bound listener only; an output that is
    open, and so accepts client connections, enrols it under the mutex,
    a closed one drops it. *)
Definition OnAccept (s : State) : option State :=
  if negb (bound s) then None
  else
    s1 ← lock s;
    Some (unlock (if open s1 then AddClient s1 else s1)).

(** a client whose connection failed removes itself under the mutex *)
Definition LockRemoveClient (c : ClientId) (s : State) : option State :=
  s1 ← lock s;
  Some (unlock (RemoveClient c s1)).

(** *** The output as a transition system

    The calls the audio pipeline, the listener and the clients make on
    an output, and the passing of time. *)
Inductive Call : Type :=
| CallEnable
| CallDisable
| CallOpen (audio_format : AudioFormat)
| CallClose
| CallPlay (chunk : list byte) (fails : ClientId -> bool)
| CallPause
| CallCancel
| CallOnAccept
| CallRemoveClient (c : ClientId)
| ClockAdvance (d : N).

(** [exec c s] is [None] when the call cannot be made, or does not
    return, in state [s]. *)
Definition exec (c : Call) (s : State) : option (State * Return) :=
  match c with
  | CallEnable => Some (Enable s, RetVoid)
  | CallDisable => Some (Disable s, RetVoid)
  | CallOpen audio_format => Open audio_format s
  | CallClose => Some (Close s, RetVoid)
  | CallPlay chunk fails => Play chunk fails s
  | CallPause => let '(s', b) := Pause s in Some (s', RetBool b)
  | CallCancel => Some (Cancel s, RetVoid)
  | CallOnAccept => s' ← OnAccept s; Some (s', RetVoid)
  | CallRemoveClient c => s' ← LockRemoveClient c s; Some (s', RetVoid)
  | ClockAdvance d => Some (set_clock (clock s + Z.of_N d) s, RetVoid)
  end.

(** the output as its constructor leaves it, at time [t0] *)
Definition initial (t0 : time_point) : State :=
  mkSnapcastOutput false None None 0 None [] false false ∅ [] O t0 [].

Fixpoint run (calls : list Call) (s : State)
    : option (State * list Return) :=
  match calls with
  | [] => Some (s, [])
  | c :: rest =>
      '(s1, r) ← exec c s;
      '(s2, rs) ← run rest s1;
      Some (s2, r :: rs)
  end.

Inductive reachable : State -> Prop :=
| reachable_initial t0 : reachable (initial t0)
| reachable_step s c s' r :
    reachable s -> exec c s = Some (s', r) -> reachable s'.

(** a sequence of [Play] calls, with what each call hands back: the
    number of bytes accepted, or an EncoderRuntimeError *)
Fixpoint play_all (calls : list (list byte * (ClientId -> bool)))
    (s : State) : option (State * list Return) :=
  match calls with
  | [] => Some (s, [])
  | (chunk, fails) :: rest =>
      '(s1, r) ← Play chunk fails s;
      '(s2, rs) ← play_all rest s1;
      Some (s2, r :: rs)
  end.

(** the bytes a call accepted: what [Play] returned, nothing for a call
    that threw *)
Definition accepted (r : Return) : Z :=
  match r with
  | RetSize n => n
  | _ => 0
  end.

Definition sum_accepted (rs : list Return) : Z :=
  foldr (λ r acc, accepted r + acc) 0 rs.

(** what a [Play] call can hand back *)
Definition is_play_outcome (r : Return) : Prop :=
  match r with
  | RetSize _ | ThrowEncoderRuntimeError => True
  | _ => False
  end.

(** the bytes an encoder consumed over a stretch of its calls *)
Definition consumed_by (ev : EncoderEvent) : Z :=
  match ev with
  | EvFeed n => n
  | _ => 0
  end.

Definition total_consumed (log : list EncoderEvent) : Z :=
  foldr (λ ev acc, consumed_by ev + acc) 0 log.

Definition is_flush (ev : EncoderEvent) : bool :=
  match ev with
  | EvFlush _ => true
  | _ => false
  end.

(** the number of flushes among the encoder calls *)
Definition count_flushes (log : list EncoderEvent) : nat :=
  length (List.filter is_flush log).

(** the unflushed-byte counter after the feed of a [Play] call, and what
    the drain of that call gives, read off the encoder *)
Definition fed_count (chunk : list byte) (s : State) : option Z :=
  e ← encoder s;
  '(_, consumed) ← enc_feed e chunk;
  Some (to_size_t (unflushed_input s + consumed)).

Definition spontaneous_output (chunk : list byte) (s : State)
    : option (list byte) :=
  e ← encoder s;
  '(e1, _) ← enc_feed e chunk;
  '(_, out) ← enc_drain e1;
  Some out.

(** what the encoder gave out over a stretch of its calls *)
Definition emitted (log : list EncoderEvent) : list byte :=
  flat_map (λ ev, match ev with
                  | EvDrain out | EvFlush out => out
                  | _ => []
                  end) log.

(** C4 in the words of the design document, for one [Play] call: when
    the unflushed-byte counter is across the threshold and the encoder
    has given nothing out, the call makes exactly one flush and leaves
    the counter at zero. *)
Definition forced_flush_claim (chunk : list byte)
    (fails : ClientId -> bool) (s : State) : Prop :=
  open s = true ->
  should_flush (unflushed_input s) flush_threshold = true ->
  emitted (encoder_log s) = [] ->
  exists s' r events,
    Play chunk fails s = Some (s', r) /\
    encoder_log s' = encoder_log s ++ events /\
    count_flushes events = 1%nat /\
    unflushed_input s' = 0.

(** *** The properties of the design document as predicates on states *)

(** the encoder pointer is non-null exactly when the output is open *)
Definition encoder_iff_open (s : State) : Prop :=
  is_Some (encoder s) ↔ open s = true.

(** a codec header is what the encoder constructed for some audio
    format produces *)
Definition is_codec_header (header : list byte) : Prop :=
  ∃ audio_format e,
    enc_open audio_format = Some e ∧ enc_header e = header.

(** an open output holds a codec header *)
Definition header_ok (s : State) : Prop :=
  open s = true →
  ∃ header, codec_header s = Some header ∧ is_codec_header header.

(** what a client has received starts with a codec header and goes on
    with wire chunks only *)
Definition header_first (received : list Message) : Prop :=
  match received with
  | CodecHeaderMessage header :: rest =>
      is_codec_header header ∧ Forall is_wire_chunk rest
  | _ => False
  end.

Definition wire_ok (s : State) : Prop :=
  (∀ c, c ∈ clients s → is_Some (wire s !! c)) ∧
  (∀ c received, wire s !! c = Some received → header_first received).

(** no client is linked twice, deleted twice, or both linked and
    deleted, and the identities in use are below the next unused one *)
Definition registry_ok (s : State) : Prop :=
  NoDup (clients s) ∧ NoDup (destroyed s) ∧
  (∀ c, c ∈ clients s → c ∉ destroyed s) ∧
  (∀ c, c ∈ clients s → (c < next_client s)%nat) ∧
  (∀ c, c ∈ destroyed s → (c < next_client s)%nat).

(** the part of the state a broadcast leaves alone *)
Definition control (s : State) :=
  (open s, encoder s, codec_header s, unflushed_input s, timer s,
   mutex s, bound s, clock s, encoder_log s).
End Output.

Arguments EncodeChunk {E _} flush_threshold chunk e s.
Arguments Play {E _} flush_threshold chunk fails s.
Arguments exec {E _} flush_threshold c s.
Arguments run {E _} flush_threshold calls s.
Arguments reachable {E _} flush_threshold s.
Arguments play_all {E _} flush_threshold calls s.
Arguments forced_flush_claim {E _} flush_threshold chunk fails s.
Arguments is_codec_header E {_} header.

(** *** Two encoders

    [PcmEncoder] passes its input through: what is fed comes out of the
    next drain, and no step fails.  [BlockEncoder] takes at most
    [block_room] bytes at a time into its buffer and gives nothing out
    before it is flushed; it refuses a chunk that begins with the byte
    FE and cannot flush a buffer that holds the byte FF.  Both count the
    bytes they have taken in. *)
Record PcmEncoder : Type := mkPcmEncoder {
  pcm_format : AudioFormat;
  pcm_pending : list byte;
  pcm_total : Z
}.

Definition format_supported (f : AudioFormat) : bool :=
  (0 <? sample_rate f) && (0 <? channels f) && (bits f =? 16).

Definition pcm_header : list byte :=
  [Byte.x52; Byte.x49; Byte.x46; Byte.x46].

#[export] Instance pcm_plugin : EncoderPlugin PcmEncoder := {|
  enc_open f :=
    if format_supported f then Some (mkPcmEncoder f [] 0) else None;
  enc_header _ := pcm_header;
  enc_feed e chunk :=
    Some (mkPcmEncoder (pcm_format e) (pcm_pending e ++ chunk)
            (pcm_total e + Z.of_nat (length chunk)),
          Z.of_nat (length chunk));
  enc_drain e :=
    Some (mkPcmEncoder (pcm_format e) [] (pcm_total e), pcm_pending e);
  enc_flush e :=
    Some (mkPcmEncoder (pcm_format e) [] (pcm_total e), pcm_pending e);
  enc_cancel e := mkPcmEncoder (pcm_format e) [] (pcm_total e)
|}.

Record BlockEncoder : Type := mkBlockEncoder {
  block_buffer : list byte;
  block_total : Z
}.

Definition block_room : nat := 4.

Definition begins_with (b : byte) (chunk : list byte) : bool :=
  match chunk with
  | c :: _ => Byte.eqb c b
  | [] => false
  end.

#[export] Instance block_plugin : EncoderPlugin BlockEncoder := {|
  enc_open f :=
    if format_supported f then Some (mkBlockEncoder [] 0) else None;
  enc_header _ := [Byte.x42];
  enc_feed e chunk :=
    if begins_with Byte.xfe chunk then None
    else
      Some (mkBlockEncoder (block_buffer e ++ take block_room chunk)
              (block_total e + Z.of_nat (length (take block_room chunk))),
            Z.of_nat (length (take block_room chunk)));
  enc_drain e := Some (e, []);
  enc_flush e :=
    if existsb (Byte.eqb Byte.xff) (block_buffer e) then None
    else Some (mkBlockEncoder [] (block_total e), block_buffer e);
  enc_cancel e := mkBlockEncoder [] (block_total e)
|}.

(** 48 kHz, 16 bit, stereo *)
Definition cd_format : AudioFormat := mkAudioFormat 48000 16 2.

Definition silence (n : nat) : list byte := replicate n Byte.x00.

Definition nobody_fails : ClientId -> bool := λ _, false.

(** an output that was enabled and opened, took two clients, played and
    lost its first client *)
Definition session : list Call :=
  [CallEnable; CallOpen cd_format; CallOnAccept; CallOnAccept;
   CallPlay (silence 8) nobody_fails; ClockAdvance 5;
   CallPlay (silence 8) nobody_fails; CallRemoveClient O].

Definition after_session (E : Type) `{EncoderPlugin E}
    (flush_threshold : Z) : SnapcastOutput E :=
  match run flush_threshold session (initial 0) with
  | Some (s, _) => s
  | None => initial 0
  end.

(** a chunk the block encoder refuses, and one it takes but cannot
    flush *)
Definition refused_chunk : list byte := [Byte.xfe; Byte.x00].

Definition poisoned_chunk : list byte :=
  [Byte.xff; Byte.x00; Byte.x00; Byte.x00].

(** an output that was enabled and opened and played four bytes *)
Definition after_first_play (E : Type) `{EncoderPlugin E}
    (flush_threshold : Z) : SnapcastOutput E :=
  match run flush_threshold
          [CallEnable; CallOpen cd_format; CallPlay (silence 4) nobody_fails]
          (initial 0) with
  | Some (s, _) => s
  | None => initial 0
  end.

(** an output that was enabled and opened *)
Definition just_opened (E : Type) `{EncoderPlugin E}
    (flush_threshold : Z) : SnapcastOutput E :=
  match run flush_threshold [CallEnable; CallOpen cd_format] (initial 0) with
  | Some (s, _) => s
  | None => initial 0
  end.
End Snapcast.

(** * Properties *)

Module IntFacts.
Import Int.
Local Open Scope Z_scope.

Lemma to_size_t_small z : 0 <= z < size_t_modulus -> to_size_t z = z.
Proof. intros H. unfold to_size_t. now apply Z.mod_small. Qed.

Lemma to_int32_small z : - int32_half <= z < int32_half -> to_int32 z = z.
Proof.
  intros H. unfold to_int32, int32_modulus, int32_half in *.
  rewrite Z.mod_small; lia.
Qed.
End IntFacts.

(** ** The transliterator wrapper *)
Module IcuSpec.
Import Int IntFacts Icu.
Local Open Scope Z_scope.

Section Model.
Variable indeterminate : nat -> UChar.
Variable t : Rules.
Variable src : list UChar.

(** the input is short enough for its doubled length to be an
    [int32_t] *)
Hypothesis src_short : Z.of_nat (length src) * 2 < int32_half.

Lemma dest_capacity_exact :
  dest_capacity src = Z.of_nat (length src) * 2.
Proof.
  unfold dest_capacity. apply to_size_t_small.
  unfold size_t_modulus, int32_half in *. lia.
Qed.

Lemma take_dest_buffer :
  take (length src) (dest_buffer indeterminate src) = src.
Proof. unfold dest_buffer. by rewrite take_app_length. Qed.

Lemma icu_transliterate_whole :
  icu_transliterate t src 0 (Z.of_nat (length src))
  = (t src, Z.of_nat (length (t src))).
Proof.
  unfold icu_transliterate.
  replace (0 <? 0) with false by reflexivity.
  replace (Z.of_nat (length src) <? 0) with false
    by (symmetry; apply Z.ltb_ge; lia).
  rewrite Z.ltb_irrefl. simpl orb. cbv iota.
  rewrite Z.sub_0_r, Nat2Z.id. simpl Z.to_nat.
  rewrite drop_0, take_0, firstn_all, drop_all, app_nil_r.
  reflexivity.
Qed.

(** what the documented entry point returns on the call the wrapper
    makes *)
Lemma trans_call_model :
  trans_call icu_transUChars indeterminate t src
  = let '(text', status') :=
      icu_extract (t src) (dest_buffer indeterminate src)
        (Z.of_nat (length src) * 2) in
    mkTransResult text' (Z.of_nat (length (t src)))
      (Z.of_nat (length (t src))) status'.
Proof.
  unfold trans_call, icu_transUChars.
  rewrite dest_capacity_exact.
  rewrite !to_int32_small by (unfold int32_half in *; lia).
  replace (U_FAILURE U_ZERO_ERROR) with false by reflexivity.
  replace (Z.of_nat (length src) <? 0) with false
    by (symmetry; apply Z.ltb_ge; lia).
  rewrite Nat2Z.id, take_dest_buffer, icu_transliterate_whole.
  reflexivity.
Qed.

Lemma Transliterate_overflow :
  Z.of_nat (length src) * 2 < Z.of_nat (length (t src)) ->
  Transliterate icu_transUChars indeterminate t src = nullptr.
Proof.
  intros Hbig. unfold Transliterate. rewrite trans_call_model.
  unfold icu_extract.
  replace (Z.of_nat (length src) * 2 <? 0) with false
    by (symmetry; apply Z.ltb_ge; lia).
  replace (Z.of_nat (length (t src)) <? Z.of_nat (length src) * 2)
    with false by (symmetry; apply Z.ltb_ge; lia).
  replace (Z.of_nat (length (t src)) =? Z.of_nat (length src) * 2)
    with false by (symmetry; apply Z.eqb_neq; lia).
  reflexivity.
Qed.

Lemma Transliterate_fits :
  Z.of_nat (length (t src)) <= Z.of_nat (length src) * 2 ->
  exists buffer,
    Transliterate icu_transUChars indeterminate t src
    = Array (t src ++ buffer) (Z.of_nat (length (t src))).
Proof.
  intros Hfit. unfold Transliterate. rewrite trans_call_model.
  unfold icu_extract.
  replace (Z.of_nat (length src) * 2 <? 0) with false
    by (symmetry; apply Z.ltb_ge; lia).
  assert (Hsz : to_size_t (Z.of_nat (length (t src)))
                = Z.of_nat (length (t src))).
  { apply to_size_t_small. unfold size_t_modulus, int32_half in *. lia. }
  destruct (Z.ltb_spec (Z.of_nat (length (t src)))
              (Z.of_nat (length src) * 2)) as [Hlt | Hge].
  - simpl. rewrite Hsz. eexists. reflexivity.
  - replace (Z.of_nat (length (t src)) =? Z.of_nat (length src) * 2)
      with true by (symmetry; apply Z.eqb_eq; lia).
    simpl. rewrite Hsz. eexists. reflexivity.
Qed.
End Model.

(** C9, as stated: the wrapper hands back exactly what the library
    computes.  It does not: the rule set [triple] turns one code unit
    into three, which does not fit the buffer of two, and the wrapper
    returns the null array. *)
Lemma Transliterate_not_passthrough :
  contents (Transliterate icu_transUChars (fun _ => 0) triple [97])
  <> Transliterate_passthrough triple [97].
Proof. vm_compute. discriminate. Qed.

(** C9, amended: for an input of fewer than 2^30 code units, the array
    the wrapper returns holds exactly the text the library computes if
    and only if that text is at most twice as long as the input, and
    when the text is longer the wrapper returns the null array; for
    every input and whatever the ICU entry point does, a failure status
    makes the wrapper return the null array. *)
Theorem Transliterate_passthrough_iff_fits :
  (forall (indeterminate : nat -> UChar) (t : Rules) (src : list UChar),
     Z.of_nat (length src) * 2 < int32_half ->
     (contents (Transliterate icu_transUChars indeterminate t src)
      = Transliterate_passthrough t src <->
      Z.of_nat (length (t src)) <= Z.of_nat (length src) * 2) /\
     (Z.of_nat (length src) * 2 < Z.of_nat (length (t src)) ->
      Transliterate icu_transUChars indeterminate t src = nullptr)) /\
  (forall (UTransliterator : Type)
      (utrans_transUChars :
         UTransliterator -> list UChar -> Z -> Z -> Z -> Z -> UErrorCode ->
         TransResult)
      (indeterminate : nat -> UChar)
      (transliterator : UTransliterator) (src : list UChar),
      U_FAILURE
        (out_status
           (trans_call utrans_transUChars indeterminate transliterator src))
      = true ->
      Transliterate utrans_transUChars indeterminate transliterator src
      = nullptr).
Proof.
  split.
  - intros ind t src Hshort. split; [split |].
    + intros Hpass.
      destruct (Z.lt_ge_cases (Z.of_nat (length src) * 2)
                  (Z.of_nat (length (t src)))) as [Hbig | Hfit];
        [| exact Hfit].
      rewrite (Transliterate_overflow ind t src Hshort Hbig) in Hpass.
      discriminate.
    + intros Hfit.
      destruct (Transliterate_fits ind t src Hshort Hfit) as [buffer ->].
      unfold contents, Transliterate_passthrough.
      by rewrite Nat2Z.id, take_app_length.
    + apply Transliterate_overflow. exact Hshort.
  - intros T icu ind tr src Hfail. unfold Transliterate.
    by rewrite Hfail.
Qed.

Lemma Transliterate_passthrough_iff_fits_witness :
  contents (Transliterate icu_transUChars (fun _ => 0) double [97; 98])
  = Transliterate_passthrough double [97; 98] /\
  Transliterate icu_transUChars (fun _ => 0) triple [97] = nullptr /\
  Transliterate icu_transUChars (fun _ => 0) triple [97; 98; 99] = nullptr.
Proof.
  split; [| split].
  - apply (proj1 (proj1 Transliterate_passthrough_iff_fits
                    (fun _ => 0) double [97; 98]
                    ltac:(vm_compute; reflexivity))).
    vm_compute. discriminate.
  - apply (proj2 (proj1 Transliterate_passthrough_iff_fits
                    (fun _ => 0) triple [97]
                    ltac:(vm_compute; reflexivity))).
    vm_compute. reflexivity.
  - apply (proj2 Transliterate_passthrough_iff_fits Rules icu_transUChars
             (fun _ => 0) triple [97; 98; 99]).
    vm_compute. reflexivity.
Defined.

(** C10: the wrapper has no exceptional outcome.  Whatever the ICU
    entry point does, a failure status gives the null array and any other
    status gives an array whose size is the length ICU reported; with the
    documented entry point, a transliteration longer than twice the
    input is such a failure, and one that fits gives an array of the
    length of the transliteration. *)
Theorem Transliterate_null_on_failure :
  (forall (UTransliterator : Type)
      (utrans_transUChars :
         UTransliterator -> list UChar -> Z -> Z -> Z -> Z -> UErrorCode ->
         TransResult)
      (indeterminate : nat -> UChar)
      (transliterator : UTransliterator) (src : list UChar),
      let r := trans_call utrans_transUChars indeterminate
                 transliterator src in
      let result := Transliterate utrans_transUChars indeterminate
                      transliterator src in
      (U_FAILURE (out_status r) = true -> result = nullptr) /\
      (U_FAILURE (out_status r) = false ->
         result <> nullptr /\
         array_size result = to_size_t (out_length r))) /\
  (forall (indeterminate : nat -> UChar) (t : Rules) (src : list UChar),
      Z.of_nat (length src) * 2 < int32_half ->
      (Z.of_nat (length src) * 2 < Z.of_nat (length (t src)) ->
         Transliterate icu_transUChars indeterminate t src = nullptr) /\
      (Z.of_nat (length (t src)) <= Z.of_nat (length src) * 2 ->
         array_size (Transliterate icu_transUChars indeterminate t src)
         = Z.of_nat (length (t src)))).
Proof.
  split.
  - intros T icu ind tr src r result. subst r result.
    unfold Transliterate.
    destruct (U_FAILURE (out_status (trans_call icu ind tr src))).
    + split; [reflexivity | discriminate].
    + split; [discriminate | intros _; split; [discriminate | reflexivity]].
  - intros ind t src Hshort. split.
    + apply Transliterate_overflow. exact Hshort.
    + intros Hfit.
      destruct (Transliterate_fits ind t src Hshort Hfit) as [buffer ->].
      reflexivity.
Qed.

Lemma Transliterate_null_on_failure_witness :
  Transliterate icu_transUChars (fun _ => 0) triple [97] = nullptr /\
  array_size (Transliterate icu_transUChars (fun _ => 0) double [97; 98])
  = 4.
Proof.
  split.
  - apply (proj2 Transliterate_null_on_failure (fun _ => 0) triple [97]).
    + vm_compute. reflexivity.
    + vm_compute. reflexivity.
  - apply (proj2 Transliterate_null_on_failure (fun _ => 0) double [97; 98]).
    + vm_compute. reflexivity.
    + vm_compute. discriminate.
Defined.
End IcuSpec.

(** ** The snapcast output *)
Module SnapcastSpec.
Import Int IntFacts Snapcast.
Local Open Scope Z_scope.

Section Queries.
Context {E : Type} `{EncoderPlugin E}.
Implicit Types s : SnapcastOutput E.

Lemma unlock_lock s s1 : lock s = Some s1 -> unlock s1 = s.
Proof.
  unfold lock, unlock. destruct s as [? ? ? ? ? ? m ? ? ? ? ? ?]; simpl.
  destruct m; [discriminate |]. intros [= <-]. reflexivity.
Qed.

Lemma lock_free s : mutex s = false -> lock s = Some (set_mutex true s).
Proof. unfold lock. intros ->. reflexivity. Qed.

(** C5: [HasClients] answers true exactly when the client list is not
    empty. *)
Theorem HasClients_iff_nonempty s :
  HasClients s = true <-> clients s <> [].
Proof.
  unfold HasClients. destruct (clients s) as [| c rest]; simpl.
  - split; [discriminate | congruence].
  - split; [discriminate | reflexivity].
Qed.

(** C6: on an output whose mutex is free, [LockHasClients] returns the
    value of [HasClients] and leaves the output as it was; and whenever
    it returns, it returns that value. *)
Theorem LockHasClients_is_HasClients :
  (forall s, mutex s = false -> LockHasClients s = Some (HasClients s, s)) /\
  (forall s b s', LockHasClients s = Some (b, s') ->
     b = HasClients s /\ s' = s).
Proof.
  assert (Hret : forall s b s', LockHasClients s = Some (b, s') ->
                   b = HasClients s /\ s' = s).
  { intros s b s'. unfold LockHasClients.
    destruct (lock s) as [s1 |] eqn:Hlock; simpl; [| discriminate].
    intros [= <- <-]. split.
    - unfold lock in Hlock. destruct (mutex s); [discriminate |].
      injection Hlock as <-. reflexivity.
    - eapply unlock_lock; eassumption. }
  split; [| exact Hret].
  intros s Hfree. unfold LockHasClients.
  rewrite (lock_free s Hfree). simpl.
  destruct s as [? ? ? ? ? ? m ? ? ? ? ? ?]; simpl in *. subst m.
  reflexivity.
Qed.

(** C8: the codec name is the string pcm, whatever the state. *)
Theorem GetCodecName_is_pcm s : GetCodecName s = "pcm"%string.
Proof. reflexivity. Qed.
End Queries.

Section Transitions.
Context {E : Type} `{EncoderPlugin E}.
Variable flush_threshold : Z.
Implicit Types s : SnapcastOutput E.

(** *** What each step leaves alone *)

Lemma RemoveClient_control c s : control (RemoveClient c s) = control s.
Proof. unfold RemoveClient. case_decide; reflexivity. Qed.

Lemma deliver_control payload t fails s c :
  control (deliver payload t fails s c) = control s.
Proof.
  unfold deliver. destruct (fails c); [apply RemoveClient_control |].
  reflexivity.
Qed.

Lemma foldl_deliver_control payload t fails l s :
  control (foldl (deliver payload t fails) s l) = control s.
Proof.
  revert s. induction l as [| c l IH]; intros s; simpl; [reflexivity |].
  rewrite IH. apply deliver_control.
Qed.

Lemma BroadcastWireChunk_control payload t fails s :
  control (BroadcastWireChunk payload t fails s) = control s.
Proof. apply foldl_deliver_control. Qed.

(** the encode step, field by field *)
Lemma EncodeChunk_inv chunk e s s1 payload n :
  EncodeChunk flush_threshold chunk e s = Some (s1, payload, n) ->
  exists e1 e2 out1 e3 unflushed events,
    enc_feed e chunk = Some (e1, n) /\
    enc_drain e1 = Some (e2, out1) /\
    (e3 = e2 \/ exists out2, enc_flush e2 = Some (e3, out2)) /\
    s1 = set_encoder_log (encoder_log s ++ events)
           (set_unflushed_input unflushed (set_encoder (Some e3) s)) /\
    total_consumed events = n /\
    emitted events = payload /\
    (count_flushes events <= 1)%nat /\
    (payload <> [] -> unflushed = 0) /\
    0 <= unflushed /\
    (unflushed = 0 \/ should_flush unflushed flush_threshold = false).
Proof.
  unfold EncodeChunk.
  destruct (enc_feed e chunk) as [[e1 k] |] eqn:Hfeed; simpl;
    [| discriminate].
  destruct (enc_drain e1) as [[e2 out1] |] eqn:Hdrain; simpl;
    [| discriminate].
  destruct (should_flush _ flush_threshold) eqn:Hflush.
  - destruct (enc_flush e2) as [[e3 out2] |] eqn:Hfl; simpl;
      [| discriminate].
    intros [= <- <- <-].
    exists e1, e2, out1, e3, 0, ([EvFeed k; EvDrain out1] ++ [EvFlush out2]).
    split_and!; eauto; try reflexivity; try lia.
    + unfold total_consumed. simpl. lia.
    + unfold emitted. simpl. by rewrite app_nil_r.
  - simpl. intros [= <- <- <-].
    exists e1, e2, out1, e2,
      (match out1 with [] => to_size_t (unflushed_input s + k)
       | _ :: _ => 0 end), ([EvFeed k; EvDrain out1] ++ []).
    split_and!; eauto; try reflexivity.
    + unfold total_consumed. simpl. lia.
    + rewrite app_nil_r. destruct out1; [congruence | reflexivity].
    + destruct out1; [| lia]. unfold to_size_t, size_t_modulus.
      apply Z.mod_pos_bound. lia.
Qed.

(** the encode step of a call whose feed takes the counter across the
    threshold and whose drain gives nothing: one flush, and the step
    succeeds exactly when the flush does *)
Lemma EncodeChunk_forced chunk e s e1 k e2 :
  enc_feed e chunk = Some (e1, k) ->
  enc_drain e1 = Some (e2, []) ->
  should_flush (to_size_t (unflushed_input s + k)) flush_threshold = true ->
  EncodeChunk flush_threshold chunk e s
  = match enc_flush e2 with
    | Some (e3, out) =>
        Some (set_encoder_log
                (encoder_log s ++ [EvFeed k; EvDrain []; EvFlush out])
                (set_unflushed_input 0 (set_encoder (Some e3) s)),
              out, k)
    | None => None
    end.
Proof.
  intros Hfeed Hdrain Hcross. unfold EncodeChunk.
  rewrite Hfeed. simpl. rewrite Hdrain. simpl. rewrite Hcross.
  destruct (enc_flush e2) as [[e3 out] |]; reflexivity.
Qed.

(** a [Play] call that hands something back threw and left the state
    alone, or went through the encode step and then either had nothing
    to broadcast or broadcast under the mutex *)
Lemma Play_inv chunk fails s s' r :
  Play flush_threshold chunk fails s = Some (s', r) ->
  exists e,
    open s = true /\ encoder s = Some e /\
    ((EncodeChunk flush_threshold chunk e s = None /\
      s' = s /\ r = ThrowEncoderRuntimeError) \/
     (exists s1 payload n,
        EncodeChunk flush_threshold chunk e s = Some (s1, payload, n) /\
        r = RetSize n /\
        ((payload = [] /\ s' = s1) \/
         (payload <> [] /\ mutex s1 = false /\
          s' = unlock (BroadcastWireChunk payload (Now (set_mutex true s1))
                         fails (set_mutex true s1)))))).
Proof.
  unfold Play. destruct (open s); simpl; [| discriminate].
  destruct (encoder s) as [e |]; [| discriminate].
  destruct (EncodeChunk flush_threshold chunk e s)
    as [[[s1 payload] k] |] eqn:Henc.
  - destruct payload as [| b payload].
    + intros [= <- <-]. exists e. split_and!; auto.
      right. exists s1, [], k. split_and!; auto.
    + unfold lock. destruct (mutex s1) eqn:Hm; simpl; [discriminate |].
      intros [= <- <-]. exists e. split_and!; auto.
      right. exists s1, (b :: payload), k.
      split_and!; auto; right; split_and!; auto.
  - intros [= <- <-]. exists e. split_and!; auto.
Qed.

(** a [Play] call whose encode step fails throws and leaves the state
    as it was *)
Lemma Play_throw chunk fails s e :
  open s = true -> encoder s = Some e ->
  EncodeChunk flush_threshold chunk e s = None ->
  Play flush_threshold chunk fails s = Some (s, ThrowEncoderRuntimeError).
Proof.
  intros Hopen He Henc. unfold Play. by rewrite Hopen, He, Henc.
Qed.

(** a [Play] call whose encode step succeeds returns the consumed
    count; the broadcast leaves the control part as the encode step
    left it *)
Lemma Play_success chunk fails s e s1 payload n :
  open s = true -> encoder s = Some e -> mutex s = false ->
  EncodeChunk flush_threshold chunk e s = Some (s1, payload, n) ->
  exists s',
    Play flush_threshold chunk fails s = Some (s', RetSize n) /\
    control s' = control s1.
Proof.
  intros Hopen He Hfree Henc. unfold Play. rewrite Hopen, He, Henc. simpl.
  destruct payload as [| b payload]; [eauto |].
  destruct (EncodeChunk_inv _ _ _ _ _ _ Henc)
    as (e1 & e2 & out1 & e3 & u & evs & _ & _ & _ & -> & _).
  unfold lock. simpl. rewrite Hfree. simpl. eexists. split; [reflexivity |].
  match goal with
  | |- control (unlock (BroadcastWireChunk ?pl ?t ?f ?x)) = _ =>
      pose proof (BroadcastWireChunk_control pl t f x) as Hc
  end.
  unfold control in *. simpl in *.
  injection Hc as -> -> -> -> -> _ -> -> ->.
  by rewrite Hfree.
Qed.

(** on an open output with its encoder and a free mutex, [Play] hands
    something back *)
Lemma Play_returns chunk fails s :
  open s = true -> is_Some (encoder s) -> mutex s = false ->
  exists s' r, Play flush_threshold chunk fails s = Some (s', r).
Proof.
  intros Hopen [e He] Hfree.
  destruct (EncodeChunk flush_threshold chunk e s)
    as [[[s1 payload] n] |] eqn:Henc.
  - destruct (Play_success chunk fails s e s1 payload n Hopen He Hfree Henc)
      as (s' & HP & _). eauto.
  - rewrite (Play_throw chunk fails s e Hopen He Henc). eauto.
Qed.

(** the control part of the state after a [Play] call *)
Lemma Play_control chunk fails s s' r :
  Play flush_threshold chunk fails s = Some (s', r) ->
  (s' = s /\ r = ThrowEncoderRuntimeError) \/
  (exists e e3 unflushed events n,
     r = RetSize n /\ encoder s = Some e /\ open s = true /\
     EncodeChunk flush_threshold chunk e s
     = Some (set_encoder_log (encoder_log s ++ events)
               (set_unflushed_input unflushed (set_encoder (Some e3) s)),
             emitted events, n) /\
     control s'
     = (open s, Some e3, codec_header s, unflushed, timer s, mutex s,
        bound s, clock s, encoder_log s ++ events)).
Proof.
  intros HP. destruct (Play_inv _ _ _ _ _ HP)
    as (e & Hopen & He & [(_ & -> & ->) | (s1 & payload & n & Henc & -> & Hcase)]);
    [by left | right].
  destruct (EncodeChunk_inv _ _ _ _ _ _ Henc)
    as (e1 & e2 & out1 & e3 & u & evs & _ & _ & _ & Hs1 & _ & Hem & _).
  exists e, e3, u, evs, n. split_and!; auto.
  - rewrite Henc, Hs1, Hem. reflexivity.
  - destruct Hcase as [[_ ->] | (_ & Hm & ->)].
    + subst s1. reflexivity.
    + subst s1. simpl in Hm.
      match goal with
      | |- control (unlock (BroadcastWireChunk ?pl ?t ?f ?x)) = _ =>
          pose proof (BroadcastWireChunk_control pl t f x) as Hc
      end.
      unfold control in *. simpl in *.
      injection Hc as -> -> -> -> -> _ -> -> ->.
      rewrite Hm. reflexivity.
Qed.

(** *** The encoder and the open flag *)

Lemma exec_encoder_iff_open c s s' r :
  encoder_iff_open s ->
  exec flush_threshold c s = Some (s', r) ->
  encoder_iff_open s'.
Proof.
  intros Hinv. destruct c; simpl.
  - intros [= <- <-]. exact Hinv.
  - intros [= <- <-]. exact Hinv.
  - unfold Open. destruct (open s) eqn:Hopen; [discriminate |].
    unfold lock. destruct (mutex s); simpl; [discriminate |].
    unfold OpenEncoder. destruct (enc_open audio_format) as [e |]; simpl.
    + intros [= <- <-]. unfold encoder_iff_open. simpl.
      split; [reflexivity | eauto].
    + intros [= <- <-]. exact Hinv.
  - intros [= <- <-]. unfold Close, encoder_iff_open. simpl.
    split; [intros [? [=]] | discriminate].
  - intros HP.
    destruct (Play_control _ _ _ _ _ HP)
      as [[-> _] | (e & e3 & u & evs & n & _ & He & Hopen & _ & Hc)];
      [exact Hinv |].
    unfold control in Hc. injection Hc as Ho He' _ _ _ _ _ _ _.
    unfold encoder_iff_open. rewrite Ho, He', Hopen.
    split; [reflexivity | eauto].
  - intros [= <- <-]. exact Hinv.
  - intros [= <- <-]. unfold Cancel.
    destruct (encoder s) as [e |] eqn:He; [| exact Hinv].
    unfold encoder_iff_open in *. simpl. rewrite He in Hinv.
    split; [intros _; apply Hinv; eauto | eauto].
  - unfold OnAccept. destruct (bound s); simpl; [| discriminate].
    unfold lock. destruct (mutex s); simpl; [discriminate |].
    intros [= <- <-]. destruct (open s) eqn:Hopen; exact Hinv.
  - unfold LockRemoveClient, lock. destruct (mutex s); simpl; [discriminate |].
    intros [= <- <-]. unfold RemoveClient. simpl.
    case_decide; exact Hinv.
  - intros [= <- <-]. exact Hinv.
Qed.

Lemma initial_encoder_iff_open t0 : encoder_iff_open (initial (E:=E) t0).
Proof.
  unfold encoder_iff_open. simpl. split; [intros [? [=]] | discriminate].
Qed.

(** C3: in every reachable state the encoder pointer is non-null
    exactly when the output is open; every call that returns takes a
    state with this property to a state with this property; and so do
    [AddClient] and [RemoveClient] when called directly. *)
Theorem encoder_iff_open_invariant :
  (forall s, reachable flush_threshold s -> encoder_iff_open s) /\
  (forall c s s' r,
     encoder_iff_open s ->
     exec flush_threshold c s = Some (s', r) ->
     encoder_iff_open s') /\
  (forall s c,
     encoder_iff_open s ->
     encoder_iff_open (AddClient s) /\ encoder_iff_open (RemoveClient c s)).
Proof.
  split_and!.
  - intros s Hreach. induction Hreach as [t0 | s c s' r _ IH Hexec].
    + apply initial_encoder_iff_open.
    + eapply exec_encoder_iff_open; eassumption.
  - intros c s s' r. apply exec_encoder_iff_open.
  - intros s c Hinv. split; [exact Hinv |].
    unfold RemoveClient. case_decide; exact Hinv.
Qed.

(** *** Bytes accepted and bytes consumed *)

Lemma total_consumed_app log1 log2 :
  total_consumed (log1 ++ log2) = total_consumed log1 + total_consumed log2.
Proof.
  unfold total_consumed. induction log1 as [| ev log1 IH]; simpl; lia.
Qed.

Section Accounting.
Context {meter : ConsumptionMeter E}.

(** one [Play] call on an open output: it hands back a count or an
    EncoderRuntimeError, leaves the output open with an encoder and a
    free mutex, and what it accepted is what the encoder took in during
    the call, which is part of the chunk *)
Lemma Play_accounts chunk fails s e :
  open s = true -> encoder s = Some e -> mutex s = false ->
  exists s' r e' events,
    Play flush_threshold chunk fails s = Some (s', r) /\
    is_play_outcome r /\
    open s' = true /\ encoder s' = Some e' /\ mutex s' = false /\
    accepted r = enc_consumed e' - enc_consumed e /\
    0 <= accepted r <= Z.of_nat (length chunk) /\
    encoder_log s' = encoder_log s ++ events /\
    accepted r = total_consumed events.
Proof.
  intros Hopen He Hfree.
  destruct (EncodeChunk flush_threshold chunk e s)
    as [[[s1 payload] n] |] eqn:Henc.
  - destruct (Play_success chunk fails s e s1 payload n Hopen He Hfree Henc)
      as (s' & HP & Hc).
    destruct (EncodeChunk_inv _ _ _ _ _ _ Henc)
      as (e1 & e2 & out1 & e3 & u & evs & Hfeed & Hdrain & Hflush & Hs1
          & Htot & _).
    subst s1. unfold control in Hc. simpl in Hc.
    injection Hc as Ho He' _ _ _ Hm _ _ Hlog.
    destruct (enc_feed_consumed _ _ _ _ Hfeed) as [Hc1 Hbound].
    pose proof (enc_drain_consumed _ _ _ Hdrain) as Hc2.
    assert (Hc3 : enc_consumed e3 = enc_consumed e2).
    { destruct Hflush as [-> | [out2 Hfl]]; [reflexivity |].
      exact (enc_flush_consumed _ _ _ Hfl). }
    exists s', (RetSize n), e3, evs. simpl.
    split_and!; auto; try congruence; lia.
  - exists s, ThrowEncoderRuntimeError, e, []. simpl.
    rewrite (Play_throw chunk fails s e Hopen He Henc), app_nil_r.
    split_and!; auto; lia.
Qed.

End Accounting.

(** *** The flush heuristic *)

Lemma should_flush_after_feed unflushed k :
  should_flush unflushed flush_threshold = true ->
  0 <= k -> 0 <= unflushed -> unflushed + k < size_t_modulus ->
  should_flush (to_size_t (unflushed + k)) flush_threshold = true.
Proof.
  unfold should_flush. intros Hcross Hk Hu Hsmall.
  rewrite to_size_t_small by lia.
  apply Z.leb_le in Hcross. apply Z.leb_le. lia.
Qed.

(** every call that returns: what it adds to the encoder calls holds at
    most one flush, and the counter is zero if the encoder gave out
    bytes *)
Lemma exec_emitted_resets c s s' r :
  exec flush_threshold c s = Some (s', r) ->
  exists events,
    encoder_log s' = encoder_log s ++ events /\
    (count_flushes events <= 1)%nat /\
    (emitted events <> [] -> unflushed_input s' = 0).
Proof.
  assert (Hnone : forall s0 : SnapcastOutput E,
    exists events,
      encoder_log s0 = encoder_log s0 ++ events /\
      (count_flushes events <= 1)%nat /\
      (emitted events <> [] -> unflushed_input s0 = 0)).
  { intros s0. exists []. rewrite app_nil_r.
    split_and!; [reflexivity | unfold count_flushes; simpl; lia | done]. }
  destruct c; simpl.
  - intros [= <- <-]. apply (Hnone s).
  - intros [= <- <-]. apply (Hnone s).
  - unfold Open. destruct (open s); [discriminate |].
    unfold lock. destruct (mutex s); simpl; [discriminate |].
    unfold OpenEncoder. destruct (enc_open audio_format) as [e |]; simpl;
      intros [= <- <-]; exists []; simpl; rewrite app_nil_r;
      (split_and!; [reflexivity | unfold count_flushes; simpl; lia | done]).
  - intros [= <- <-]. unfold Close.
    destruct (encoder s) as [e |]; [| apply (Hnone s)].
    destruct (enc_flush e) as [[e' out] |]; [| apply (Hnone s)].
    exists [EvFlush out]. destruct out as [| b out]; simpl.
    + split_and!; [reflexivity | unfold count_flushes; simpl; lia | done].
    + split_and!; [reflexivity | unfold count_flushes; simpl; lia | done].
  - intros HP.
    destruct (Play_control _ _ _ _ _ HP)
      as [[-> _] | (e & e3 & u & evs & n & _ & He & Hopen & Henc & Hc)];
      [apply (Hnone s) |].
    destruct (EncodeChunk_inv _ _ _ _ _ _ Henc)
      as (e1 & e2 & out1 & e3' & u' & evs' & _ & _ & _ & Hs1 & _ & Hem
          & Hle & Hout & _).
    assert (evs' = evs) as ->.
    { apply (f_equal encoder_log) in Hs1. simpl in Hs1.
      by apply app_inv_head in Hs1. }
    assert (u' = u) as ->.
    { apply (f_equal unflushed_input) in Hs1. simpl in Hs1. congruence. }
    unfold control in Hc. injection Hc as _ _ _ Hu _ _ _ _ Hlog.
    exists evs. split_and!; auto.
    intros Hne. rewrite Hu. apply Hout. exact Hne.
  - intros [= <- <-]. apply (Hnone s).
  - intros [= <- <-]. unfold Cancel.
    destruct (encoder s) as [e |]; [| apply (Hnone s)].
    exists [EvCancel]. simpl.
    split_and!; [reflexivity | unfold count_flushes; simpl; lia | done].
  - unfold OnAccept. destruct (bound s); simpl; [| discriminate].
    unfold lock. destruct (mutex s); simpl; [discriminate |].
    intros [= <- <-]. destruct (open s); apply (Hnone s).
  - unfold LockRemoveClient, lock. destruct (mutex s); simpl; [discriminate |].
    intros [= <- <-]. unfold RemoveClient. case_decide; apply (Hnone s).
  - intros [= <- <-]. apply (Hnone s).
Qed.

(** with a positive threshold no call leaves the counter across the
    threshold *)
Lemma exec_counter_below c s s' r :
  0 < flush_threshold ->
  0 <= unflushed_input s < flush_threshold ->
  exec flush_threshold c s = Some (s', r) ->
  0 <= unflushed_input s' < flush_threshold.
Proof.
  intros Hpos Hu. destruct c; simpl.
  - intros [= <- <-]. exact Hu.
  - intros [= <- <-]. exact Hu.
  - unfold Open. destruct (open s); [discriminate |].
    unfold lock. destruct (mutex s); simpl; [discriminate |].
    unfold OpenEncoder. destruct (enc_open audio_format) as [e |]; simpl;
      intros [= <- <-]; simpl; [lia | exact Hu].
  - intros [= <- <-]. unfold Close.
    destruct (encoder s) as [e |]; [| exact Hu].
    destruct (enc_flush e) as [[e' out] |]; [| exact Hu].
    destruct out; simpl; [exact Hu | lia].
  - intros HP.
    destruct (Play_control _ _ _ _ _ HP)
      as [[-> _] | (e & e3 & u & evs & n & _ & He & Hopen & Henc & Hc)];
      [exact Hu |].
    destruct (EncodeChunk_inv _ _ _ _ _ _ Henc)
      as (e1 & e2 & out1 & e3' & u' & evs' & _ & _ & _ & Hs1 & _ & _
          & _ & _ & Hnonneg & Hbelow).
    assert (u' = u) as ->.
    { apply (f_equal unflushed_input) in Hs1. simpl in Hs1. congruence. }
    unfold control in Hc. injection Hc as _ _ _ Hu' _ _ _ _ _.
    rewrite Hu'. destruct Hbelow as [-> | Hno]; [lia |].
    unfold should_flush in Hno. apply Z.leb_gt in Hno. lia.
  - intros [= <- <-]. exact Hu.
  - intros [= <- <-]. unfold Cancel. destruct (encoder s); exact Hu.
  - unfold OnAccept. destruct (bound s); simpl; [| discriminate].
    unfold lock. destruct (mutex s); simpl; [discriminate |].
    intros [= <- <-]. destruct (open s); exact Hu.
  - unfold LockRemoveClient, lock. destruct (mutex s); simpl; [discriminate |].
    intros [= <- <-]. unfold RemoveClient. case_decide; exact Hu.
  - intros [= <- <-]. exact Hu.
Qed.


(** *** Header first *)

Lemma header_first_snoc received payload t :
  header_first received ->
  header_first (received ++ [WireChunkMessage payload t]).
Proof.
  destruct received as [| [header | p t'] rest]; simpl; try contradiction.
  intros [Hheader Hrest]. split; [exact Hheader |].
  apply Forall_app. split; [exact Hrest |].
  by apply Forall_singleton.
Qed.

Lemma exec_header_ok c s s' r :
  header_ok s -> exec flush_threshold c s = Some (s', r) -> header_ok s'.
Proof.
  intros Hok. destruct c; simpl.
  - intros [= <- <-]. exact Hok.
  - intros [= <- <-]. exact Hok.
  - unfold Open. destruct (open s) eqn:Hopen; [discriminate |].
    unfold lock. destruct (mutex s); simpl; [discriminate |].
    unfold OpenEncoder.
    destruct (enc_open audio_format) as [e |] eqn:He; simpl.
    + intros [= <- <-] _. simpl. exists (enc_header e).
      split; [reflexivity |]. exists audio_format, e. auto.
    + intros [= <- <-]. exact Hok.
  - intros [= <- <-]. unfold Close, header_ok. simpl. discriminate.
  - intros HP.
    destruct (Play_control _ _ _ _ _ HP)
      as [[-> _] | (e & e3 & u & evs & n & _ & _ & _ & _ & Hc)];
      [exact Hok |].
    unfold control in Hc. injection Hc as Ho _ Hh _ _ _ _ _ _.
    unfold header_ok. rewrite Ho, Hh. exact Hok.
  - intros [= <- <-]. exact Hok.
  - intros [= <- <-]. unfold Cancel. destruct (encoder s); exact Hok.
  - unfold OnAccept. destruct (bound s); simpl; [| discriminate].
    unfold lock. destruct (mutex s); simpl; [discriminate |].
    intros [= <- <-]. destruct (open s) eqn:Hopen; exact Hok.
  - unfold LockRemoveClient, lock. destruct (mutex s); simpl; [discriminate |].
    intros [= <- <-]. unfold RemoveClient. simpl. case_decide; exact Hok.
  - intros [= <- <-]. exact Hok.
Qed.

Lemma wire_ok_same s s' :
  clients s' = clients s -> wire s' = wire s -> wire_ok s -> wire_ok s'.
Proof. unfold wire_ok. intros -> ->. auto. Qed.

Lemma wire_ok_RemoveClient c s : wire_ok s -> wire_ok (RemoveClient c s).
Proof.
  unfold RemoveClient. case_decide; [| auto].
  intros [Hdom Hlog]. split; simpl; [| exact Hlog].
  intros c' Hc'. apply list_elem_of_filter in Hc' as [_ Hc']. auto.
Qed.

Lemma wire_RemoveClient c s : wire (RemoveClient c s) = wire s.
Proof. unfold RemoveClient. case_decide; reflexivity. Qed.

Lemma foldl_deliver_wire_ok payload t fails l :
  forall s,
    wire_ok s -> (forall c, c ∈ l -> is_Some (wire s !! c)) ->
    wire_ok (foldl (deliver payload t fails) s l).
Proof.
  induction l as [| c l IH]; intros s Hok Hl; simpl; [exact Hok |].
  apply IH.
  - unfold deliver. destruct (fails c); [by apply wire_ok_RemoveClient |].
    destruct Hok as [Hdom Hlog].
    destruct (Hl c) as [received Hc]; [left |].
    rewrite Hc. simpl. split; simpl.
    + intros c' Hc'. apply lookup_insert_is_Some'. right. auto.
    + intros c' received'. rewrite lookup_insert.
      case_decide as Hcc.
      * intros [= <-]. apply header_first_snoc. eauto.
      * apply Hlog.
  - intros c' Hc'. unfold deliver. destruct (fails c).
    + rewrite wire_RemoveClient. apply Hl. by right.
    + simpl. apply lookup_insert_is_Some'. right. apply Hl. by right.
Qed.

Lemma wire_ok_BroadcastWireChunk payload t fails s :
  wire_ok s -> wire_ok (BroadcastWireChunk payload t fails s).
Proof.
  intros Hok. unfold BroadcastWireChunk.
  apply foldl_deliver_wire_ok; [exact Hok | apply Hok].
Qed.

Lemma wire_ok_AddClient s :
  open s = true -> header_ok s -> wire_ok s -> wire_ok (AddClient s).
Proof.
  intros Hopen Hheader [Hdom Hlog]. unfold AddClient. split; simpl.
  - intros c Hc. apply lookup_insert_is_Some'.
    apply elem_of_app in Hc as [Hc | Hc].
    + right. auto.
    + left. apply list_elem_of_singleton in Hc. by subst.
  - intros c received. rewrite lookup_insert. case_decide.
    + intros [= <-]. simpl.
      destruct (Hheader Hopen) as (header & Hh & Hcodec).
      unfold GetCodecHeader. rewrite Hh. split; [exact Hcodec | constructor].
    + apply Hlog.
Qed.

(** enrolment sends the current codec header and links the client
    last *)
Lemma AddClient_sends_header s :
  wire (AddClient s) !! next_client s
  = Some [CodecHeaderMessage (GetCodecHeader s)] /\
  clients (AddClient s) = clients s ++ [next_client s].
Proof. unfold AddClient. simpl. by rewrite lookup_insert_eq. Qed.

Lemma exec_wire_ok c s s' r :
  header_ok s -> wire_ok s ->
  exec flush_threshold c s = Some (s', r) -> wire_ok s'.
Proof.
  intros Hheader Hok. destruct c; simpl.
  - intros [= <- <-]. exact Hok.
  - intros [= <- <-]. exact Hok.
  - unfold Open. destruct (open s); [discriminate |].
    unfold lock. destruct (mutex s); simpl; [discriminate |].
    unfold OpenEncoder. destruct (enc_open audio_format) as [e |]; simpl;
      intros [= <- <-]; exact Hok.
  - intros [= <- <-]. unfold Close.
    destruct (encoder s) as [e |]; [| exact Hok].
    destruct (enc_flush e) as [[e' out] |]; [| exact Hok].
    destruct out; exact Hok.
  - intros HP.
    destruct (Play_inv _ _ _ _ _ HP)
      as (e & _ & _ & [(_ & -> & _) | (s0 & payload & n & Henc & _ & Hcase)]);
      [exact Hok |].
    destruct (EncodeChunk_inv _ _ _ _ _ _ Henc)
      as (e1 & e2 & out1 & e3 & u & evs & _ & _ & _ & -> & _).
    destruct Hcase as [[_ ->] | (_ & _ & ->)]; [exact Hok |].
    match goal with
    | |- wire_ok (unlock ?x) =>
        apply (wire_ok_same x); [reflexivity | reflexivity |]
    end.
    apply wire_ok_BroadcastWireChunk. exact Hok.
  - intros [= <- <-]. exact Hok.
  - intros [= <- <-]. unfold Cancel. destruct (encoder s); exact Hok.
  - unfold OnAccept. destruct (bound s); simpl; [| discriminate].
    unfold lock. destruct (mutex s); simpl; [discriminate |].
    intros [= <- <-]. destruct (open s) eqn:Hopen; [| exact Hok].
    apply (wire_ok_AddClient (set_mutex true s)); assumption.
  - unfold LockRemoveClient, lock. destruct (mutex s); simpl; [discriminate |].
    intros [= <- <-].
    match goal with
    | |- wire_ok (unlock ?x) =>
        apply (wire_ok_same x); [reflexivity | reflexivity |]
    end.
    apply wire_ok_RemoveClient. exact Hok.
  - intros [= <- <-]. exact Hok.
Qed.

Lemma reachable_wire_ok s :
  reachable flush_threshold s -> header_ok s /\ wire_ok s.
Proof.
  induction 1 as [t0 | s c s' r _ [IHh IHw] Hexec].
  - split; [unfold header_ok; simpl; discriminate |].
    split; simpl.
    + intros c Hc. by apply elem_of_nil in Hc.
    + intros c received. by rewrite lookup_empty.
  - split.
    + eapply exec_header_ok; eassumption.
    + eapply exec_wire_ok; eassumption.
Qed.

(** C2: in every reachable state, every linked client has received
    something, and what any client has received starts with a codec
    header, as an encoder produces it, and goes on with wire chunks
    only. *)
Theorem header_before_chunks s c :
  reachable flush_threshold s ->
  (c ∈ clients s -> is_Some (wire s !! c)) /\
  (forall received,
     wire s !! c = Some received ->
     exists header rest,
       received = CodecHeaderMessage header :: rest /\
       is_codec_header E header /\
       Forall is_wire_chunk rest).
Proof.
  intros Hreach.
  destruct (reachable_wire_ok s Hreach) as [_ [Hdom Hlog]].
  split; [apply Hdom |].
  intros received Hc. specialize (Hlog c received Hc).
  destruct received as [| [header | p t] rest]; simpl in Hlog;
    try contradiction.
  exists header, rest. tauto.
Qed.

(** *** The client registry *)

Lemma registry_ok_same s s' :
  clients s' = clients s -> destroyed s' = destroyed s ->
  next_client s' = next_client s -> registry_ok s -> registry_ok s'.
Proof. unfold registry_ok. intros -> -> ->. auto. Qed.

Lemma registry_ok_RemoveClient c s :
  registry_ok s -> registry_ok (RemoveClient c s).
Proof.
  unfold RemoveClient. case_decide as Hin; [| auto].
  intros (Hnd & Hdd & Hdis & Hlt & Hdlt). unfold registry_ok. simpl.
  split_and!.
  - by apply NoDup_filter.
  - apply NoDup_app. split_and!; [exact Hdd | | apply NoDup_singleton].
    intros x Hx Hx'. apply list_elem_of_singleton in Hx'. subst x.
    by apply (Hdis c).
  - intros x Hx Hx'. apply list_elem_of_filter in Hx as [Hne Hx].
    apply elem_of_app in Hx' as [Hx' | Hx'].
    + by apply (Hdis x).
    + by apply list_elem_of_singleton in Hx'.
  - intros x Hx. apply list_elem_of_filter in Hx as [_ Hx]. auto.
  - intros x Hx. apply elem_of_app in Hx as [Hx | Hx]; [auto |].
    apply list_elem_of_singleton in Hx. subst x. auto.
Qed.

Lemma registry_ok_deliver payload t fails s c :
  registry_ok s -> registry_ok (deliver payload t fails s c).
Proof.
  unfold deliver. destruct (fails c); [apply registry_ok_RemoveClient |].
  auto.
Qed.

Lemma foldl_deliver_registry_ok payload t fails l :
  forall s,
    registry_ok s -> registry_ok (foldl (deliver payload t fails) s l).
Proof.
  induction l as [| c l IH]; intros s Hok; simpl; [exact Hok |].
  apply IH. by apply registry_ok_deliver.
Qed.

Lemma registry_ok_BroadcastWireChunk payload t fails s :
  registry_ok s -> registry_ok (BroadcastWireChunk payload t fails s).
Proof. apply foldl_deliver_registry_ok. Qed.

Lemma registry_ok_AddClient s : registry_ok s -> registry_ok (AddClient s).
Proof.
  intros (Hnd & Hdd & Hdis & Hlt & Hdlt). unfold AddClient, registry_ok.
  simpl. split_and!.
  - apply NoDup_app. split_and!; [exact Hnd | | apply NoDup_singleton].
    intros x Hx Hx'. apply list_elem_of_singleton in Hx'. subst x.
    specialize (Hlt _ Hx). lia.
  - exact Hdd.
  - intros x Hx Hx'. apply elem_of_app in Hx as [Hx | Hx].
    + by apply (Hdis x).
    + apply list_elem_of_singleton in Hx. subst x.
      specialize (Hdlt _ Hx'). lia.
  - intros x Hx. apply elem_of_app in Hx as [Hx | Hx].
    + specialize (Hlt _ Hx). lia.
    + apply list_elem_of_singleton in Hx. subst x. lia.
  - intros x Hx. specialize (Hdlt _ Hx). lia.
Qed.

Lemma exec_registry_ok c s s' r :
  registry_ok s -> exec flush_threshold c s = Some (s', r) ->
  registry_ok s'.
Proof.
  intros Hok. destruct c; simpl.
  - intros [= <- <-]. exact Hok.
  - intros [= <- <-]. exact Hok.
  - unfold Open. destruct (open s); [discriminate |].
    unfold lock. destruct (mutex s); simpl; [discriminate |].
    unfold OpenEncoder. destruct (enc_open audio_format) as [e |]; simpl;
      intros [= <- <-]; exact Hok.
  - intros [= <- <-]. unfold Close.
    destruct (encoder s) as [e |]; [| exact Hok].
    destruct (enc_flush e) as [[e' out] |]; [| exact Hok].
    destruct out; exact Hok.
  - intros HP.
    destruct (Play_inv _ _ _ _ _ HP)
      as (e & _ & _ & [(_ & -> & _) | (s0 & payload & n & Henc & _ & Hcase)]);
      [exact Hok |].
    destruct (EncodeChunk_inv _ _ _ _ _ _ Henc)
      as (e1 & e2 & out1 & e3 & u & evs & _ & _ & _ & -> & _).
    destruct Hcase as [[_ ->] | (_ & _ & ->)]; [exact Hok |].
    match goal with
    | |- registry_ok (unlock ?x) =>
        apply (registry_ok_same x); [reflexivity | reflexivity | reflexivity |]
    end.
    apply registry_ok_BroadcastWireChunk. exact Hok.
  - intros [= <- <-]. exact Hok.
  - intros [= <- <-]. unfold Cancel. destruct (encoder s); exact Hok.
  - unfold OnAccept. destruct (bound s); simpl; [| discriminate].
    unfold lock. destruct (mutex s); simpl; [discriminate |].
    intros [= <- <-]. destruct (open s); [| exact Hok].
    apply (registry_ok_AddClient (set_mutex true s)). exact Hok.
  - unfold LockRemoveClient, lock. destruct (mutex s); simpl; [discriminate |].
    intros [= <- <-].
    match goal with
    | |- registry_ok (unlock ?x) =>
        apply (registry_ok_same x); [reflexivity | reflexivity | reflexivity |]
    end.
    apply registry_ok_RemoveClient. exact Hok.
  - intros [= <- <-]. exact Hok.
Qed.

Lemma reachable_registry_ok s :
  reachable flush_threshold s -> registry_ok s.
Proof.
  induction 1 as [t0 | s c s' r _ IH Hexec].
  - unfold registry_ok. simpl. split_and!; try apply NoDup_nil_2;
      intros c Hc; by apply elem_of_nil in Hc.
  - eapply exec_registry_ok; eassumption.
Qed.

Lemma filter_ne_absent (c : ClientId) (l : list ClientId) :
  c ∉ l -> filter (λ x, x ≠ c) l = l.
Proof.
  induction l as [| x l IH]; intros Hc; [reflexivity |].
  apply not_elem_of_cons in Hc as [Hne Hc].
  rewrite filter_cons. case_decide as Hx; [| congruence].
  by rewrite IH.
Qed.

Lemma length_filter_ne (c : ClientId) (l : list ClientId) :
  NoDup l ->
  (length (filter (λ x, x ≠ c) l) <= length l
   <= S (length (filter (λ x, x ≠ c) l)))%nat.
Proof.
  induction 1 as [| x l Hx Hnd IH]; simpl; [lia |].
  rewrite filter_cons. case_decide as Hxc; simpl; [lia |].
  assert (x = c) as -> by (destruct (decide (x = c)); [done | contradiction]).
  rewrite filter_ne_absent by exact Hx. lia.
Qed.

Lemma RemoveClient_twice c s :
  RemoveClient c (RemoveClient c s) = RemoveClient c s.
Proof.
  unfold RemoveClient at 2 3. case_decide as Hin.
  - unfold RemoveClient. simpl. case_decide as Hin'; [| reflexivity].
    apply list_elem_of_filter in Hin' as [Hne _]. contradiction.
  - unfold RemoveClient. case_decide; [contradiction | reflexivity].
Qed.

(** C7: removing a client again is a no-op.  In every reachable state a
    removal makes the registry smaller by at most one client, repeating
    it changes nothing, the client is not linked afterwards, and no
    client has been destroyed twice. *)
Theorem RemoveClient_idempotent s c :
  reachable flush_threshold s ->
  RemoveClient c (RemoveClient c s) = RemoveClient c s /\
  ((length (clients (RemoveClient c s)) <= length (clients s))%nat /\
   (length (clients s) <= S (length (clients (RemoveClient c s))))%nat) /\
  (c ∉ clients (RemoveClient c s)) /\
  NoDup (destroyed (RemoveClient c s)) /\
  (c ∉ clients s -> RemoveClient c s = s).
Proof.
  intros Hreach. pose proof (reachable_registry_ok s Hreach) as Hok.
  pose proof (registry_ok_RemoveClient c s Hok) as (_ & Hdd & _).
  assert (Hsize :
    (length (clients (RemoveClient c s)) <= length (clients s))%nat /\
    (length (clients s) <= S (length (clients (RemoveClient c s))))%nat).
  { unfold RemoveClient. case_decide; simpl; [| lia].
    apply length_filter_ne. apply Hok. }
  assert (Hgone : c ∉ clients (RemoveClient c s)).
  { unfold RemoveClient. case_decide as Hin; simpl; [| exact Hin].
    intros Hc. apply list_elem_of_filter in Hc as [Hne _]. contradiction. }
  assert (Hnoop : c ∉ clients s -> RemoveClient c s = s).
  { intros Hnot. unfold RemoveClient. case_decide; [contradiction | done]. }
  pose proof (RemoveClient_twice c s) as Htwice.
  tauto.
Qed.

Lemma run_reachable calls :
  forall s s' rs,
    reachable flush_threshold s ->
    run flush_threshold calls s = Some (s', rs) ->
    reachable flush_threshold s'.
Proof.
  induction calls as [| c calls IH]; intros s s' rs Hreach; simpl.
  - intros [= <- <-]. exact Hreach.
  - destruct (exec flush_threshold c s) as [[s1 r] |] eqn:Hexec; simpl;
      [| discriminate].
    destruct (run flush_threshold calls s1) as [[s2 rs'] |] eqn:Hrun; simpl;
      [| discriminate].
    intros [= <- <-]. eapply IH; [| exact Hrun].
    eapply reachable_step; eassumption.
Qed.
End Transitions.

(** *** The theorems at work on two sessions *)

Lemma LockHasClients_is_HasClients_witness :
  LockHasClients (after_session PcmEncoder 65536)
  = Some (HasClients (after_session PcmEncoder 65536),
          after_session PcmEncoder 65536).
Proof.
  apply (proj1 LockHasClients_is_HasClients (after_session PcmEncoder 65536)).
  vm_compute. reflexivity.
Defined.

Lemma encoder_iff_open_invariant_witness :
  encoder_iff_open (after_session PcmEncoder 65536).
Proof.
  apply (proj1 (encoder_iff_open_invariant 65536)).
  apply (run_reachable 65536 session (initial 0) _
           (repeat RetVoid 4 ++ [RetSize 8; RetVoid; RetSize 8; RetVoid])).
  - apply reachable_initial.
  - vm_compute. reflexivity.
Defined.

(** the two encoders count what they take in *)
Lemma pcm_feed_consumed (e : PcmEncoder) chunk e' k :
  enc_feed e chunk = Some (e', k) ->
  pcm_total e' = pcm_total e + k /\ 0 <= k <= Z.of_nat (length chunk).
Proof. simpl. intros [= <- <-]. simpl. lia. Qed.

Lemma pcm_drain_consumed (e : PcmEncoder) e' out :
  enc_drain e = Some (e', out) -> pcm_total e' = pcm_total e.
Proof. simpl. by intros [= <- <-]. Qed.

Lemma pcm_flush_consumed (e : PcmEncoder) e' out :
  enc_flush e = Some (e', out) -> pcm_total e' = pcm_total e.
Proof. simpl. by intros [= <- <-]. Qed.

#[export] Instance pcm_meter : ConsumptionMeter PcmEncoder := {|
  enc_consumed := pcm_total;
  enc_feed_consumed := pcm_feed_consumed;
  enc_drain_consumed := pcm_drain_consumed;
  enc_flush_consumed := pcm_flush_consumed;
  enc_cancel_consumed := λ e, eq_refl
|}.

Lemma block_feed_consumed (e : BlockEncoder) chunk e' k :
  enc_feed e chunk = Some (e', k) ->
  block_total e' = block_total e + k /\ 0 <= k <= Z.of_nat (length chunk).
Proof.
  simpl. destruct (begins_with Byte.xfe chunk); [discriminate |].
  intros [= <- <-]. simpl. rewrite length_take. lia.
Qed.

Lemma block_drain_consumed (e : BlockEncoder) e' out :
  enc_drain e = Some (e', out) -> block_total e' = block_total e.
Proof. simpl. by intros [= <- <-]. Qed.

Lemma block_flush_consumed (e : BlockEncoder) e' out :
  enc_flush e = Some (e', out) -> block_total e' = block_total e.
Proof.
  simpl. destruct (existsb _ _); [discriminate |]. by intros [= <- <-].
Qed.

#[export] Instance block_meter : ConsumptionMeter BlockEncoder := {|
  enc_consumed := block_total;
  enc_feed_consumed := block_feed_consumed;
  enc_drain_consumed := block_drain_consumed;
  enc_flush_consumed := block_flush_consumed;
  enc_cancel_consumed := λ e, eq_refl
|}.




Lemma header_before_chunks_witness :
  (1%nat ∈ clients (after_session PcmEncoder 65536) ->
   is_Some (wire (after_session PcmEncoder 65536) !! 1%nat)) /\
  (forall received,
     wire (after_session PcmEncoder 65536) !! 1%nat = Some received ->
     exists header rest,
       received = CodecHeaderMessage header :: rest /\
       is_codec_header PcmEncoder header /\
       Forall is_wire_chunk rest).
Proof.
  apply (header_before_chunks 65536 (after_session PcmEncoder 65536) 1%nat).
  apply (run_reachable 65536 session (initial 0) _
           (repeat RetVoid 4 ++ [RetSize 8; RetVoid; RetSize 8; RetVoid])).
  - apply reachable_initial.
  - vm_compute. reflexivity.
Defined.

Lemma RemoveClient_idempotent_witness :
  RemoveClient 1%nat (RemoveClient 1%nat (after_session PcmEncoder 65536))
  = RemoveClient 1%nat (after_session PcmEncoder 65536) /\
  ((length (clients (RemoveClient 1%nat (after_session PcmEncoder 65536)))
    <= length (clients (after_session PcmEncoder 65536)))%nat /\
   (length (clients (after_session PcmEncoder 65536))
    <= S (length (clients
                    (RemoveClient 1%nat (after_session PcmEncoder 65536)))))%nat) /\
  (1%nat ∉ clients (RemoveClient 1%nat (after_session PcmEncoder 65536))) /\
  NoDup (destroyed (RemoveClient 1%nat (after_session PcmEncoder 65536))) /\
  (1%nat ∉ clients (after_session PcmEncoder 65536) ->
   RemoveClient 1%nat (after_session PcmEncoder 65536)
   = after_session PcmEncoder 65536).
Proof.
  apply (RemoveClient_idempotent 65536 (after_session PcmEncoder 65536) 1%nat).
  apply (run_reachable 65536 session (initial 0) _
           (repeat RetVoid 4 ++ [RetSize 8; RetVoid; RetSize 8; RetVoid])).
  - apply reachable_initial.
  - vm_compute. reflexivity.
Defined.
End SnapcastSpec.

(** ** Further properties of the transliterator wrapper *)
Module IcuEdge.
Import Int IntFacts Icu IcuSpec.
Local Open Scope Z_scope.

Section Open.
Context {UTransliterator : Type}.
Variable utrans_openU :
  list UChar -> Z -> Z -> option (list UChar) -> Z -> bool -> UErrorCode ->
  option UTransliterator * UErrorCode.
Variable u_errorName : UErrorCode -> string.

(** The constructor decides on the handle alone: it throws exactly when
    ICU hands back a null handle, whatever the error code says. *)
Lemma IcuTransliterator_new_throws_iff_null id rules :
  (exists what,
     IcuTransliterator_new utrans_openU u_errorName id rules
     = runtime_error what) <->
  fst (utrans_openU id (-1) UTRANS_FORWARD rules (-1) false U_ZERO_ERROR)
  = None.
Proof.
  unfold IcuTransliterator_new, OpenTransliterator.
  destruct (utrans_openU _ _ _ _ _ _ _) as [[t |] code]; simpl.
  - split; [intros [what [=]] | discriminate].
  - split; [reflexivity | eauto].
Qed.
End Open.

Section Buffer.
Variable indeterminate : nat -> UChar.
Variable t : Rules.
Variable src : list UChar.
Hypothesis src_short : Z.of_nat (length src) * 2 < int32_half.

Lemma length_dest_buffer :
  length (dest_buffer indeterminate src) = (2 * length src)%nat.
Proof.
  unfold dest_buffer.
  rewrite length_app, length_map, length_seq.
  rewrite (dest_capacity_exact src src_short). lia.
Qed.

Lemma Transliterate_shorter :
  Z.of_nat (length (t src)) < Z.of_nat (length src) * 2 ->
  Transliterate icu_transUChars indeterminate t src
  = Array (t src ++ 0 :: drop (S (length (t src)))
                          (dest_buffer indeterminate src))
      (Z.of_nat (length (t src))).
Proof.
  intros Hlt. unfold Transliterate.
  rewrite (trans_call_model indeterminate t src src_short).
  unfold icu_extract.
  replace (Z.of_nat (length src) * 2 <? 0) with false
    by (symmetry; apply Z.ltb_ge; lia).
  replace (Z.of_nat (length (t src)) <? Z.of_nat (length src) * 2)
    with true by (symmetry; apply Z.ltb_lt; lia).
  simpl. rewrite to_size_t_small; [reflexivity |].
  unfold size_t_modulus, int32_half in *. lia.
Qed.

Lemma Transliterate_full :
  Z.of_nat (length (t src)) = Z.of_nat (length src) * 2 ->
  Transliterate icu_transUChars indeterminate t src
  = Array (t src) (Z.of_nat (length (t src))).
Proof.
  intros Heq. unfold Transliterate.
  rewrite (trans_call_model indeterminate t src src_short).
  unfold icu_extract.
  replace (Z.of_nat (length src) * 2 <? 0) with false
    by (symmetry; apply Z.ltb_ge; lia).
  replace (Z.of_nat (length (t src)) <? Z.of_nat (length src) * 2)
    with false by (symmetry; apply Z.ltb_ge; lia).
  replace (Z.of_nat (length (t src)) =? Z.of_nat (length src) * 2)
    with true by (symmetry; apply Z.eqb_eq; lia).
  simpl. rewrite drop_ge by (rewrite length_dest_buffer; lia).
  rewrite app_nil_r, to_size_t_small; [reflexivity |].
  unfold size_t_modulus, int32_half in *. lia.
Qed.

Lemma contents_fits :
  Z.of_nat (length (t src)) <= Z.of_nat (length src) * 2 ->
  contents (Transliterate icu_transUChars indeterminate t src)
  = Some (t src).
Proof.
  intros Hfit.
  destruct (Transliterate_fits indeterminate t src src_short Hfit)
    as [buffer ->].
  unfold contents. by rewrite Nat2Z.id, take_app_length.
Qed.
End Buffer.

(** X1: for an input whose doubled length is an [int32_t], and whatever
    the ICU entry point does, the one call the wrapper makes hands over
    a buffer of exactly twice as many cells as the input that begins
    with the input, the length of the input as text length and as limit,
    the length of that buffer as capacity, start 0 and a clear status;
    the result of the wrapper is read off what that call hands back. *)
Theorem Transliterate_call_arguments (UTransliterator : Type)
    (utrans_transUChars :
       UTransliterator -> list UChar -> Z -> Z -> Z -> Z -> UErrorCode ->
       TransResult)
    (indeterminate : nat -> UChar)
    (transliterator : UTransliterator) (src : list UChar) :
  Z.of_nat (length src) * 2 < int32_half ->
  let buffer := dest_buffer indeterminate src in
  let r := utrans_transUChars transliterator buffer
             (Z.of_nat (length src)) (Z.of_nat (length buffer))
             0 (Z.of_nat (length src)) U_ZERO_ERROR in
  length buffer = (2 * length src)%nat /\
  take (length src) buffer = src /\
  trans_call utrans_transUChars indeterminate transliterator src = r /\
  Transliterate utrans_transUChars indeterminate transliterator src
  = if U_FAILURE (out_status r) then nullptr
    else Array (out_text r) (to_size_t (out_length r)).
Proof.
  intros Hshort buffer r.
  assert (Hcall :
    trans_call utrans_transUChars indeterminate transliterator src = r).
  { subst r buffer. unfold trans_call.
    rewrite (length_dest_buffer indeterminate src Hshort).
    rewrite (dest_capacity_exact src Hshort).
    rewrite !to_int32_small by (unfold int32_half in *; lia).
    f_equal. lia. }
  split_and!.
  - by apply length_dest_buffer.
  - apply take_dest_buffer.
  - exact Hcall.
  - unfold Transliterate. by rewrite Hcall.
Qed.

Lemma Transliterate_call_arguments_witness :
  length (dest_buffer (fun _ => 7) [97; 98; 99]) = (2 * 3)%nat /\
  take 3 (dest_buffer (fun _ => 7) [97; 98; 99]) = [97; 98; 99] /\
  trans_call icu_transUChars (fun _ => 7) double [97; 98; 99]
  = icu_transUChars double (dest_buffer (fun _ => 7) [97; 98; 99])
      3 6 0 3 U_ZERO_ERROR /\
  Transliterate icu_transUChars (fun _ => 7) double [97; 98; 99]
  = Array [97; 97; 98; 98; 99; 99] 6.
Proof.
  apply (Transliterate_call_arguments Rules icu_transUChars (fun _ => 7)
           double [97; 98; 99]).
  vm_compute. reflexivity.
Defined.

(** X2: with the documented ICU entry point and an input whose doubled
    length is an [int32_t], the wrapper returns the null array exactly
    when the transliteration is longer than twice the input. *)
Theorem Transliterate_null_iff_too_long (indeterminate : nat -> UChar)
    (t : Rules) (src : list UChar) :
  Z.of_nat (length src) * 2 < int32_half ->
  (Transliterate icu_transUChars indeterminate t src = nullptr <->
   Z.of_nat (length src) * 2 < Z.of_nat (length (t src))).
Proof.
  intros Hshort. split.
  - intros Hnull.
    destruct (Z.lt_ge_cases (Z.of_nat (length src) * 2)
                (Z.of_nat (length (t src)))) as [Hbig | Hfit];
      [exact Hbig |].
    destruct (Transliterate_fits indeterminate t src Hshort Hfit)
      as [buffer Hfits].
    rewrite Hfits in Hnull. discriminate.
  - by apply Transliterate_overflow.
Qed.

Lemma Transliterate_null_iff_too_long_witness :
  Transliterate icu_transUChars (fun _ => 7) triple [97; 98] = nullptr <->
  Z.of_nat (length [97; 98]) * 2 < Z.of_nat (length (triple [97; 98])).
Proof.
  apply (Transliterate_null_iff_too_long (fun _ => 7) triple [97; 98]).
  vm_compute. reflexivity.
Defined.

(** X3: with the documented ICU entry point, an array the wrapper
    returns keeps the whole allocation of twice the input length, and
    the size it declares is the length of the transliteration and lies
    within that allocation. *)
Theorem Transliterate_size_within_buffer (indeterminate : nat -> UChar)
    (t : Rules) (src : list UChar) (buffer : list UChar) (size : Z) :
  Z.of_nat (length src) * 2 < int32_half ->
  Transliterate icu_transUChars indeterminate t src = Array buffer size ->
  length buffer = (2 * length src)%nat /\
  size = Z.of_nat (length (t src)) /\
  0 <= size <= Z.of_nat (length buffer).
Proof.
  intros Hshort Hret.
  destruct (Z.lt_ge_cases (Z.of_nat (length src) * 2)
              (Z.of_nat (length (t src)))) as [Hbig | Hfit].
  { rewrite (Transliterate_overflow indeterminate t src Hshort Hbig) in Hret.
    discriminate. }
  pose proof (length_dest_buffer indeterminate src Hshort) as Hlen.
  destruct (Z.lt_ge_cases (Z.of_nat (length (t src)))
              (Z.of_nat (length src) * 2)) as [Hlt | Hge].
  - rewrite (Transliterate_shorter indeterminate t src Hshort Hlt) in Hret.
    injection Hret as <- <-.
    rewrite length_app. simpl. rewrite length_drop, Hlen. lia.
  - rewrite (Transliterate_full indeterminate t src Hshort) in Hret by lia.
    injection Hret as <- <-. lia.
Qed.

Lemma Transliterate_size_within_buffer_witness :
  length [97; 97; 98; 98] = (2 * length [97; 98])%nat /\
  4 = Z.of_nat (length (double [97; 98])) /\
  0 <= 4 <= Z.of_nat (length [97; 97; 98; 98]).
Proof.
  apply (Transliterate_size_within_buffer (fun _ => 7) double [97; 98]
           [97; 97; 98; 98] 4).
  - vm_compute. reflexivity.
  - vm_compute. reflexivity.
Defined.

(** X4: with the documented ICU entry point, what the returned array
    exposes does not depend on the indeterminate cells of the fresh
    buffer: no uninitialised cell shows in the result. *)
Theorem Transliterate_hides_indeterminate
    (indeterminate1 indeterminate2 : nat -> UChar)
    (t : Rules) (src : list UChar) :
  Z.of_nat (length src) * 2 < int32_half ->
  contents (Transliterate icu_transUChars indeterminate1 t src)
  = contents (Transliterate icu_transUChars indeterminate2 t src).
Proof.
  intros Hshort.
  destruct (Z.lt_ge_cases (Z.of_nat (length src) * 2)
              (Z.of_nat (length (t src)))) as [Hbig | Hfit].
  - by rewrite !Transliterate_overflow.
  - by rewrite !contents_fits.
Qed.

Lemma Transliterate_hides_indeterminate_witness :
  contents (Transliterate icu_transUChars (fun _ => 7) double [97; 0; 98])
  = contents (Transliterate icu_transUChars (fun i => Z.of_nat i) double
                [97; 0; 98]).
Proof.
  apply (Transliterate_hides_indeterminate (fun _ => 7)
           (fun i => Z.of_nat i) double [97; 0; 98]).
  vm_compute. reflexivity.
Defined.

(** X5: with the documented ICU entry point, a transliteration shorter
    than the buffer is followed by a NUL in the returned buffer, while
    one that fills the buffer exactly is returned without any
    terminator: the buffer is the transliteration and nothing else. *)
Theorem Transliterate_termination (indeterminate : nat -> UChar)
    (t : Rules) (src : list UChar) :
  Z.of_nat (length src) * 2 < int32_half ->
  (Z.of_nat (length (t src)) < Z.of_nat (length src) * 2 ->
   exists buffer,
     Transliterate icu_transUChars indeterminate t src
     = Array buffer (Z.of_nat (length (t src))) /\
     buffer !! length (t src) = Some 0) /\
  (Z.of_nat (length (t src)) = Z.of_nat (length src) * 2 ->
   Transliterate icu_transUChars indeterminate t src
   = Array (t src) (Z.of_nat (length (t src)))).
Proof.
  intros Hshort. split.
  - intros Hlt. eexists. split.
    + by apply Transliterate_shorter.
    + by apply list_lookup_middle.
  - by apply Transliterate_full.
Qed.

Lemma Transliterate_termination_witness :
  (exists buffer,
     Transliterate icu_transUChars (fun _ => 7) (fun s => s) [97; 98]
     = Array buffer 2 /\
     buffer !! 2%nat = Some 0) /\
  Transliterate icu_transUChars (fun _ => 7) double [97; 98]
  = Array [97; 97; 98; 98] 4.
Proof.
  assert (Hshort : Z.of_nat (length [97; 98]) * 2 < int32_half)
    by (vm_compute; reflexivity).
  split.
  - apply (proj1 (Transliterate_termination (fun _ => 7) (fun s => s)
                    [97; 98] Hshort)).
    vm_compute. reflexivity.
  - apply (proj2 (Transliterate_termination (fun _ => 7) double
                    [97; 98] Hshort)).
    vm_compute. reflexivity.
Defined.

(** X6: with the documented ICU entry point, the empty input gives the
    empty array, which is not the null array, when the rules produce
    nothing for it, and the null array as soon as they produce
    anything. *)
Theorem Transliterate_empty (indeterminate : nat -> UChar) (t : Rules) :
  Transliterate icu_transUChars indeterminate t []
  = match t [] with
    | [] => Array [] 0
    | _ :: _ => nullptr
    end.
Proof.
  assert (Hshort : Z.of_nat (length (@nil UChar)) * 2 < int32_half)
    by (vm_compute; reflexivity).
  destruct (t []) as [| c rest] eqn:Ht.
  - rewrite (Transliterate_full indeterminate t [] Hshort)
      by (rewrite Ht; reflexivity).
    by rewrite Ht.
  - apply (Transliterate_overflow indeterminate t [] Hshort).
    rewrite Ht. simpl length. lia.
Qed.
End IcuEdge.
